(** * A CloudWatch Logs stream as a buffered writer

    Shallow embedding of the [Writer] of package [cloudwatch]: line
    splitting ([buffer]), the events buffer ([add], [drain]), the append
    protocol with its two conflict classes ([putLogEvents], [flush],
    [Flush]), the facade ([Write], [Close]) and the background loop
    ([start], one move at a time: [start_step]).

    The source file of the writer holds two revisions.  The later one
    (constants [perEventBytes] ..., [putLogEvents], a [Flush] without
    result) is the program verified here, at top level.  The earlier one
    ([getSequenceToken], a [Flush] returning [error]) is embedded in
    [Module Earlier]; it shares the data model, [Write] and [buffer].

    Modelling choices.
    - [[]byte] is [list byte]; a Go [string] is [string]; [*string] is
      [option string]; [int] and [int64] are [Z] (no value here leaves
      the 64-bit range: lengths and clock readings).
    - The remote client is any deterministic function of the history of
      calls made so far; every call is appended to [calls], so "which
      network calls were made, with what input" is a statement about
      that list.
    - [now] is an oracle: its k-th reading is [clock k].
    - [FallbackLogger] receives [LogEntry] values, kept in [logged].
    - The mutexes are not modelled: operations are atomic and
      interleave sequentially. *)

From Stdlib Require Import List ZArith Lia Bool String Ascii.
From Stdlib Require Import Strings.Byte.
From Stdlib Require Import Sorting.Permutation Sorting.Sorted.
Import ListNotations.

Set Implicit Arguments.
Open Scope string_scope.
Open Scope list_scope.

(** ** Errors *)

(** [*cloudwatchlogs.RejectedLogEventsInfo] *)
Record RejectedLogEventsInfo := {
  ExpiredLogEventEndIndex : option Z;
  TooNewLogEventStartIndex : option Z;
  TooOldLogEventEndIndex : option Z
}.

(** Go's [error] values met by the writer.  [AwsErr] is the only one that
    satisfies the type assertion [err.(awserr.Error)]. *)
Inductive error : Type :=
| EOF                                             (* io.EOF *)
| ErrClosedPipe                                   (* io.ErrClosedPipe *)
| AwsErr (code message : string)                  (* awserr.Error *)
| RejectedLogEventsInfoError (Info : RejectedLogEventsInfo)
| PlainErr (text : string).                       (* any other error *)

(** ** Constants *)

Definition perEventBytes : Z := 26.
Definition maximumBytesPerPut : Z := 1048576.
Definition maximumLogEventsPerPut : Z := 10000.
Definition maximumBytesPerEvent : Z := 262144 - perEventBytes.

Definition dataAlreadyAcceptedCode : string := "DataAlreadyAcceptedException".
Definition invalidSequenceTokenCode : string := "InvalidSequenceTokenException".

(** ** Library functions used by the writer *)

Module strings.

(** [strings.Split(s, sep)] for a one-byte separator: the substrings
    between the separators; never empty ([Split("", " ")] is [[""]]). *)
Fixpoint Split (s : string) (sep : ascii) : list string :=
  match s with
  | EmptyString => [EmptyString]
  | String c s' =>
      if Ascii.eqb c sep then EmptyString :: Split s' sep
      else match Split s' sep with
           | [] => [String c EmptyString]
           | p :: ps => String c p :: ps
           end
  end.

End strings.

Module bufio.

(** [bufio.NewReader(bytes.NewReader(b))]: the bytes not yet read. *)
Definition Reader := list byte.

Definition NewReader (b : list byte) : Reader := b.

(** [r.ReadBytes(delim)]: the data up to and including the first
    [delim]; when the input ends before a [delim], the data read so far
    together with [io.EOF].  Returns the line, the error and the reader
    after the read. *)
Fixpoint ReadBytes (r : Reader) (delim : byte)
  : list byte * option error * Reader :=
  match r with
  | [] => ([], Some EOF, [])
  | c :: r' =>
      if Byte.eqb c delim then ([c], None, r')
      else let '(l, e, r'') := ReadBytes r' delim in (c :: l, e, r'')
  end.

End bufio.

(** ['\n'] *)
Definition newline : byte := x0a.

(** [" "], the separator of [strings.Split(awsErr.Message(), " ")] *)
Definition space : ascii := " "%char.

(** ** The service interface *)

(** [cloudwatchlogs.InputLogEvent] *)
Record InputLogEvent := {
  Message : string;
  Timestamp : Z
}.

Record PutLogEventsInput := {
  LogEvents : list InputLogEvent;
  LogGroupName : string;
  LogStreamName : string;
  SequenceToken : option string
}.

Record PutLogEventsOutput := {
  NextSequenceToken : option string;
  RejectedInfo : option RejectedLogEventsInfo   (* RejectedLogEventsInfo *)
}.

Record DescribeLogStreamsInput := {
  dLogGroupName : string;
  LogStreamNamePrefix : string
}.

(** [cloudwatchlogs.LogStream] *)
Record LogStream := {
  sLogStreamName : string;
  UploadSequenceToken : option string
}.

Record DescribeLogStreamsOutput := {
  LogStreams : list LogStream
}.

(** A network call, as recorded in the history. *)
Inductive Call : Type :=
| CallPut (input : PutLogEventsInput)
| CallDescribe (input : DescribeLogStreamsInput).

(** [cloudwatchlogsiface.CloudWatchLogsAPI], the two operations the
    writer uses.  The answer may depend on every call made before. *)
Record CloudWatchLogsAPI := {
  PutLogEvents :
    list Call -> PutLogEventsInput -> PutLogEventsOutput + error;
  DescribeLogStreams :
    list Call -> DescribeLogStreamsInput -> DescribeLogStreamsOutput + error
}.

(** ** The writer and its environment *)

(** What [FallbackLogger] is handed. *)
Inductive LogEntry : Type :=
| LogDataAlreadyAccepted (code message group stream : string)
| LogFailedPutAws (code message group stream : string)
| LogFailedPut (e : error)
| LogErrorFlushing (e : error).

Record World := {
  calls : list Call;          (* network calls so far, oldest first *)
  logged : list LogEntry;     (* FallbackLogger output, oldest first *)
  clockReads : nat;           (* number of calls of now() so far *)
  clock : nat -> Z            (* UnixNano() of the k-th call of now() *)
}.

Record Writer := {
  group : string;
  stream : string;
  sequenceToken : option string;
  client : CloudWatchLogsAPI;
  closed : bool;
  err : option error;
  events : list InputLogEvent   (* eventsBuffer.events *)
}.

Definition set_sequenceToken (w : Writer) (t : option string) : Writer :=
  {| group := group w; stream := stream w; sequenceToken := t;
     client := client w; closed := closed w; err := err w;
     events := events w |}.

Definition set_closed (w : Writer) (c : bool) : Writer :=
  {| group := group w; stream := stream w; sequenceToken := sequenceToken w;
     client := client w; closed := c; err := err w; events := events w |}.

Definition set_err (w : Writer) (e : option error) : Writer :=
  {| group := group w; stream := stream w; sequenceToken := sequenceToken w;
     client := client w; closed := closed w; err := e; events := events w |}.

Definition set_events (w : Writer) (evs : list InputLogEvent) : Writer :=
  {| group := group w; stream := stream w; sequenceToken := sequenceToken w;
     client := client w; closed := closed w; err := err w; events := evs |}.

Definition record_call (wd : World) (c : Call) : World :=
  {| calls := calls wd ++ [c]; logged := logged wd;
     clockReads := clockReads wd; clock := clock wd |}.

Definition log (wd : World) (l : LogEntry) : World :=
  {| calls := calls wd; logged := logged wd ++ [l];
     clockReads := clockReads wd; clock := clock wd |}.

(** [now().UnixNano()] *)
Definition now (wd : World) : Z * World :=
  (clock wd (clockReads wd),
   {| calls := calls wd; logged := logged wd;
      clockReads := S (clockReads wd); clock := clock wd |}).

(** [NewWriter(group, stream, client, opts)] of the writer source, less
    its ticker: [opts] only sets the period of [flushTicker], and the
    ticks are the [Go] moves of a schedule ([Options.NewWriter] keeps the
    ticker).  The goroutine [go w.start()] it launches is [start_step]
    below, from [AtCheck]. *)
Definition NewWriter (g s : string) (c : CloudWatchLogsAPI) : Writer :=
  {| group := g; stream := s; sequenceToken := None; client := c;
     closed := false; err := None; events := [] |}.

(** ** The events buffer *)

Definition add (w : Writer) (event : InputLogEvent) : Writer :=
  set_events w (events w ++ [event]).

Definition drain (w : Writer) : list InputLogEvent * Writer :=
  (events w, set_events w []).

(** ** Line splitting *)

(** The loop [for !eof { ... }] of [buffer]: one iteration per unit of
    fuel.  [n] is the byte count so far.  [None] is "out of fuel". *)
Fixpoint buffer_loop (fuel : nat) (r : bufio.Reader) (n : Z)
    (w : Writer) (wd : World) : option (Z * Writer * World) :=
  match fuel with
  | O => None
  | S fuel' =>
      let '(b, e, r') := bufio.ReadBytes r newline in
      match e with
      | Some EOF | None =>
          let eof := match e with Some _ => true | None => false end in
          let '(n', w', wd') :=
            if (List.length b =? 0)%nat then (n, w, wd)
            else
              let '(t, wd1) := now wd in
              (n + Z.of_nat (List.length b),
               add w {| Message := string_of_list_byte b;
                        Timestamp := Z.quot t 1000000 |},
               wd1)%Z in
          if eof then Some (n', w', wd')
          else buffer_loop fuel' r' n' w' wd'
      | Some _ => Some (n, w, wd)          (* break *)
      end
  end.

(** [w.buffer(b)].  Each iteration but the last consumes at least the
    delimiter, so [S (length b)] iterations are enough
    ([buffer_loop_enough_fuel]). *)
Definition buffer (w : Writer) (wd : World) (b : list byte)
  : (Z * option error) * Writer * World :=
  match buffer_loop (S (List.length b)) (bufio.NewReader b) 0%Z w wd with
  | Some (n, w', wd') => ((n, None), w', wd')
  | None => ((0%Z, None), w, wd)
  end.

(** [w.Write(b)] *)
Definition Write (w : Writer) (wd : World) (b : list byte)
  : (Z * option error) * Writer * World :=
  if closed w then ((0%Z, Some ErrClosedPipe), w, wd)
  else match err w with
       | Some e => ((0%Z, Some e), w, wd)
       | None => buffer w wd b
       end.

(** ** The append protocol *)

(** [parts[len(parts)-1]] of [strings.Split(message, " ")]: the token an
    append conflict carries is the last word of its message. *)
Definition lastPart (message : string) : string :=
  let parts := strings.Split message space in
  nth (List.length parts - 1) parts EmptyString.

Definition putInput (w : Writer) (evs : list InputLogEvent)
    (token : option string) : PutLogEventsInput :=
  {| LogEvents := evs; LogGroupName := group w; LogStreamName := stream w;
     SequenceToken := token |}.

(** [w.putLogEvents(events, sequenceToken)]: one call of the client. *)
Definition putLogEvents (w : Writer) (wd : World)
    (evs : list InputLogEvent) (token : option string)
  : (option string * option error) * World :=
  let input := putInput w evs token in
  let wd1 := record_call wd (CallPut input) in
  match PutLogEvents (client w) (calls wd) input with
  | inr e =>
      let wd2 :=
        match e with
        | AwsErr code message =>
            if negb (String.eqb code invalidSequenceTokenCode)
            then log wd1 (LogFailedPutAws code message (group w) (stream w))
            else wd1
        | _ => log wd1 (LogFailedPut e)
        end in
      ((None, Some e), wd2)
  | inl resp => ((NextSequenceToken resp, None), wd1)
  end.

(** [w.flush(events)] *)
Definition flush (w : Writer) (wd : World) (evs : list InputLogEvent)
  : Writer * World :=
  let '((nextSequenceToken, e), wd1) :=
    putLogEvents w wd evs (sequenceToken w) in
  let '((nextSequenceToken, e), wd2) :=
    match e with
    | Some (AwsErr code message) =>
        if String.eqb code dataAlreadyAcceptedCode then
          (* already submitted, just grab the correct sequence token *)
          ((Some (lastPart message), None),
           log wd1 (LogDataAlreadyAccepted code message (group w) (stream w)))
        else if String.eqb code invalidSequenceTokenCode then
          (* sequence code is bad, grab the correct one and retry *)
          putLogEvents w wd1 evs (Some (lastPart message))
        else ((nextSequenceToken, e), wd1)
    | _ => ((nextSequenceToken, e), wd1)
    end in
  match e with
  | Some e' => (set_err w (Some e'), log wd2 (LogErrorFlushing e'))
  | None => (set_sequenceToken w nextSequenceToken, wd2)
  end.

(** [w.Flush()]: it has no result. *)
Definition Flush (w : Writer) (wd : World) : Writer * World :=
  let '(evs, w1) := drain w in
  if (List.length evs =? 0)%nat then (w1, wd)
  else flush w1 wd evs.

(** [w.Close()] *)
Definition Close (w : Writer) (wd : World) : Writer * World :=
  Flush (set_closed w true) wd.

(** ** Callers and the background loop *)

(** What a caller can do with a writer. *)
Inductive Op : Type :=
| OpWrite (b : list byte)
| OpFlush
| OpClose.

Definition run_op (o : Op) (s : Writer * World) : Writer * World :=
  let '(w, wd) := s in
  match o with
  | OpWrite b => let '(_, w', wd') := Write w wd b in (w', wd')
  | OpFlush => Flush w wd
  | OpClose => Close w wd
  end.

Definition run_ops (os : list Op) (s : Writer * World) : Writer * World :=
  fold_left (fun s o => run_op o s) os s.

(** Where the goroutine [w.start()] stands: about to test [w.closed],
    blocked on [<-w.flushTicker], or returned with its result. *)
Inductive Loop : Type :=
| AtCheck
| Waiting
| Returned (result : option error).

(** One move of [w.start()]: the test of [w.closed], or the receipt of a
    tick followed by [w.Flush()]. *)
Definition start_step (s : Loop * Writer * World) : Loop * Writer * World :=
  let '(l, w, wd) := s in
  match l with
  | AtCheck => if closed w then (Returned None, w, wd) else (Waiting, w, wd)
  | Waiting => let '(w', wd') := Flush w wd in (AtCheck, w', wd')
  | Returned _ => s
  end.

(** What happens next: a caller acts, or the goroutine moves.  A caller's
    operation is one move.  [Flush] holds the writer's lock, but [Write]
    holds none: its two tests and its adds can be separated by moves of
    the loop, which a schedule of these events does not show.  What is
    stated over schedules below does not rest on a write being one move:
    it concerns [closed], the loop, the calls made and the fields a write
    never assigns. *)
Inductive Event : Type :=
| Caller (o : Op)
| Go.

Definition step (ev : Event) (s : Loop * Writer * World)
  : Loop * Writer * World :=
  match ev with
  | Caller o => let '(l, w, wd) := s in
                let '(w', wd') := run_op o (w, wd) in (l, w', wd')
  | Go => start_step s
  end.

Definition run (sched : list Event) (s : Loop * Writer * World)
  : Loop * Writer * World :=
  fold_left (fun s ev => step ev s) sched s.

(** ** The earlier revision *)

Module Earlier.

(** [w.getSequenceToken()].  The named result is assigned only under
    [w.sequenceToken == nil]. *)
Definition getSequenceToken (w : Writer) (wd : World)
  : option string * World :=
  match sequenceToken w with
  | None =>
      let input := {| dLogGroupName := group w;
                      LogStreamNamePrefix := stream w |} in
      let wd1 := record_call wd (CallDescribe input) in
      match DescribeLogStreams (client w) (calls wd) input with
      | inl out =>
          (match find (fun s => String.eqb (sLogStreamName s) (stream w))
                      (LogStreams out) with
           | Some s => UploadSequenceToken s
           | None => None
           end, wd1)
      | inr _ => (None, wd1)
      end
  | Some _ => (None, wd)
  end.

(** [w.flush(events)] *)
Definition flush (w : Writer) (wd : World) (evs : list InputLogEvent)
  : option error * Writer * World :=
  let '(token, wd1) := getSequenceToken w wd in
  let input := putInput w evs token in
  let wd2 := record_call wd1 (CallPut input) in
  match PutLogEvents (client w) (calls wd1) input with
  | inr e => (Some e, w, wd2)
  | inl resp =>
      match RejectedInfo resp with
      | Some info =>
          let e := RejectedLogEventsInfoError info in
          (Some e, set_err w (Some e), wd2)
      | None => (None, set_sequenceToken w (NextSequenceToken resp), wd2)
      end
  end.

(** [w.Flush()] *)
Definition Flush (w : Writer) (wd : World)
  : option error * Writer * World :=
  let '(evs, w1) := drain w in
  if (List.length evs =? 0)%nat then (None, w1, wd)
  else
    let '(e, w2, wd') := flush w1 wd evs in
    (e, set_err w2 e, wd').

(** [w.Close()] *)
Definition Close (w : Writer) (wd : World)
  : option error * Writer * World :=
  Flush (set_closed w true) wd.

(** One move of [w.start()]: here a failed [Flush] ends the loop. *)
Definition start_step (s : Loop * Writer * World)
  : Loop * Writer * World :=
  let '(l, w, wd) := s in
  match l with
  | AtCheck => if closed w then (Returned None, w, wd) else (Waiting, w, wd)
  | Waiting =>
      let '(e, w', wd') := Flush w wd in
      match e with
      | Some e' => (Returned (Some e'), w', wd')
      | None => (AtCheck, w', wd')
      end
  | Returned _ => s
  end.

End Earlier.

(** ** Test doubles *)

(** A client that answers the k-th [PutLogEvents] with the k-th entry of
    a script (and with a fixed answer once the script is used up), and
    every [DescribeLogStreams] with [describe]. *)
Definition scripted (script : list (PutLogEventsOutput + error))
    (describe : DescribeLogStreamsOutput + error) : CloudWatchLogsAPI :=
  {| PutLogEvents := fun history _ =>
       nth (List.length
              (filter (fun c => match c with CallPut _ => true | _ => false end)
                      history))
           script
           (inl {| NextSequenceToken := Some "next";
                   RejectedInfo := None |});
     DescribeLogStreams := fun _ _ => describe |}.

Definition accepted (token : string) : PutLogEventsOutput + error :=
  inl {| NextSequenceToken := Some token; RejectedInfo := None |}.

Definition noStreams : DescribeLogStreamsOutput + error :=
  inl {| LogStreams := [] |}.

(** A world where nothing has happened yet; the clock stands at 1.5 s. *)
Definition world0 : World :=
  {| calls := []; logged := []; clockReads := 0;
     clock := fun _ => 1500000000%Z |}.

(** The bytes of a string literal; ["/"] stands for a line break, so
    [bytes "a/b"] is the Go literal "a\nb". *)
Definition bytes (s : string) : list byte :=
  map (fun c => if Byte.eqb c "/"%byte then newline else c)
      (list_byte_of_string s).

(** The string of a byte slice: [string(b)]. *)
Definition str (s : string) : string := string_of_list_byte (bytes s).

(** The two conflicts, as the service words them, and two other
    failures. *)
Definition stale (token : string) : PutLogEventsOutput + error :=
  inr (AwsErr invalidSequenceTokenCode
         ("The given sequenceToken is invalid. The next expected sequenceToken is: "
          ++ token)).

Definition duplicate (token : string) : PutLogEventsOutput + error :=
  inr (AwsErr dataAlreadyAcceptedCode
         ("The given batch of log events has already been accepted. The next batch can be sent with sequenceToken: "
          ++ token)).

Definition timeout : error := PlainErr "timeout".

Definition throttled : error := AwsErr "ThrottlingException" "Rate exceeded".

Definition ev1 : InputLogEvent := {| Message := "x"; Timestamp := 1500 |}.

(** A writer for stream "s" of group "g" holding [token], with [evs]
    buffered, whose client follows [script]. *)
Definition writerWith (script : list (PutLogEventsOutput + error))
    (token : option string) (evs : list InputLogEvent) : Writer :=
  set_events
    (set_sequenceToken (NewWriter "g" "s" (scripted script noStreams)) token)
    evs.

(** A fresh writer whose client accepts everything. *)
Definition w0 : Writer := writerWith [] None [].

(** The messages of each batch handed to [PutLogEvents], oldest first. *)
Definition putBatches (cs : list Call) : list (list string) :=
  flat_map (fun c => match c with
                     | CallPut i => [map Message (LogEvents i)]
                     | CallDescribe _ => []
                     end) cs.

(** ** Auxiliary definitions for the statements *)

(** The reads of non-zero length that [buffer] sees on input [r]: every
    line with its terminator, then the unterminated rest if there is one. *)
Fixpoint lines (r : list byte) : list (list byte) :=
  match r with
  | [] => []
  | c :: r' =>
      if Byte.eqb c newline then [c] :: lines r'
      else match lines r' with
           | [] => [[c]]
           | l :: ls => (c :: l) :: ls
           end
  end.

(** The events made of the reads [ls], the first one stamped with the
    [k]-th clock reading. *)
Fixpoint mkEvents (ls : list (list byte)) (clk : nat -> Z) (k : nat)
  : list InputLogEvent :=
  match ls with
  | [] => []
  | l :: ls' =>
      {| Message := string_of_list_byte l;
         Timestamp := Z.quot (clk k) 1000000 |} :: mkEvents ls' clk (S k)
  end.

(** The world after [k] more clock readings. *)
Definition advance (wd : World) (k : nat) : World :=
  {| calls := calls wd; logged := logged wd;
     clockReads := clockReads wd + k; clock := clock wd |}.

(** A chunk after which a new line starts: empty, or ending in ['\n']. *)
Definition endsLine (a : list byte) : bool :=
  Byte.eqb (last a newline) newline.

(** Number of line terminators in [b]. *)
Definition terminators (b : list byte) : nat :=
  List.length (filter (fun c => Byte.eqb c newline) b).

(** The documented limits of one [PutLogEvents] call, over the constants
    of the source. *)
Definition batchBytes (evs : list InputLogEvent) : Z :=
  fold_right (fun e acc => Z.of_nat (String.length (Message e))
                           + perEventBytes + acc)%Z 0%Z evs.

Definition withinLimits (evs : list InputLogEvent) : bool :=
  (Z.of_nat (List.length evs) <=? maximumLogEventsPerPut)%Z
  && (batchBytes evs <=? maximumBytesPerPut)%Z
  && forallb (fun e => (Z.of_nat (String.length (Message e))
                        <=? maximumBytesPerEvent)%Z) evs.

Definition isDescribe (c : Call) : bool :=
  match c with CallDescribe _ => true | CallPut _ => false end.

(** The append calls in [cs] all carry the batch [evs] for [w]'s stream. *)
Definition putsOf (w : Writer) (evs : list InputLogEvent) (cs : list Call)
  : Prop :=
  Forall (fun c => exists t, c = CallPut (putInput w evs t)) cs.

(** An append error that is neither of the two conflicts. *)
Definition nonConflict (e : error) : Prop :=
  match e with
  | AwsErr code _ =>
      code <> dataAlreadyAcceptedCode /\ code <> invalidSequenceTokenCode
  | _ => True
  end.

(** What holds of the loop and the writer at every moment: a returned
    loop returned [nil], from a closed writer. *)
Definition loopInv (s : Loop * Writer * World) : Prop :=
  let '(l, w, _) := s in
  forall r, l = Returned r -> r = None /\ closed w = true.

(** ** The events buffer under a sequence of uses *)

(** What [Write] and [Flush] do to the buffer. *)
Inductive BufOp : Type :=
| BAdd (event : InputLogEvent)
| BDrain.

(** Runs [ops] on [w]'s buffer; returns the batches drained, oldest
    first, and the writer. *)
Fixpoint run_buf (ops : list BufOp) (w : Writer)
  : list (list InputLogEvent) * Writer :=
  match ops with
  | [] => ([], w)
  | BAdd e :: ops' => run_buf ops' (add w e)
  | BDrain :: ops' =>
      let '(evs, w1) := drain w in
      let '(batches, w2) := run_buf ops' w1 in
      (evs :: batches, w2)
  end.

Definition addedEvents (ops : list BufOp) : list InputLogEvent :=
  flat_map (fun o => match o with BAdd e => [e] | BDrain => [] end) ops.

(** ** Groups (cloudwatch.go)

    [Create] and [Attach] of cloudwatch.go call [NewWriter] with three
    arguments, a writer revision that is not among the sources; the
    sources hold the four-argument one.  [NewWriter] stands for that call
    here, and what is stated of [Create] and [Attach] names the call and
    says nothing of what the writer then does. *)

(** [cloudwatchlogs.ErrCodeResourceAlreadyExistsException] *)
Definition ErrCodeResourceAlreadyExistsException : string :=
  "ResourceAlreadyExistsException".

(** A provisioning call, as recorded in its own history. *)
Inductive AdminCall : Type :=
| CallCreateLogGroup (LogGroupName : string)
| CallCreateLogStream (LogGroupName LogStreamName : string)
| CallDescribeLogGroups (LogGroupNamePrefix : string).

(** [cloudwatchlogs.LogGroup] *)
Record LogGroup := {
  gLogGroupName : string
}.

(** [*cloudwatchlogs.CloudWatchLogs]: the operations of
    [CloudWatchLogsAPI] and the provisioning operations the groups use,
    whose outputs other than the error are dropped by the callers. *)
Record CloudWatchLogs := {
  API : CloudWatchLogsAPI;
  CreateLogGroup : list AdminCall -> string -> option error;
  CreateLogStream : list AdminCall -> string -> string -> option error;
  DescribeLogGroups : list AdminCall -> string -> list LogGroup + error
}.

(** [Group]: its fields [group] and [client]. *)
Record Group := {
  Group_group : string;
  Group_client : CloudWatchLogs
}.

(** The block
    [if awsErr, ok := err.(awserr.Error); ok {
       if awsErr.Code() == ErrCodeResourceAlreadyExistsException { err = nil } }]
    applied to a non-nil [err]. *)
Definition exceptAlreadyExists (e : error) : option error :=
  match e with
  | AwsErr code _ =>
      if String.eqb code ErrCodeResourceAlreadyExistsException then None
      else Some e
  | _ => Some e
  end.

(** [NewGroup(group, client)] *)
Definition NewGroup (g : string) (c : CloudWatchLogs) (h : list AdminCall)
  : (option Group * option error) * list AdminCall :=
  let h1 := h ++ [CallCreateLogGroup g] in
  match CreateLogGroup c h g with
  | Some e =>
      match exceptAlreadyExists e with
      | Some e' => ((None, Some e'), h1)
      | None => ((Some {| Group_group := g; Group_client := c |}, None), h1)
      end
  | None => ((Some {| Group_group := g; Group_client := c |}, None), h1)
  end.

(** [g.Create(stream)] *)
Definition Create (g : Group) (s : string) (h : list AdminCall)
  : (option Writer * option error) * list AdminCall :=
  let h1 := h ++ [CallCreateLogStream (Group_group g) s] in
  match CreateLogStream (Group_client g) h (Group_group g) s with
  | Some e => ((None, Some e), h1)
  | None =>
      ((Some (NewWriter (Group_group g) s (API (Group_client g))), None), h1)
  end.

(** [g.Attach(stream)] *)
Definition Attach (g : Group) (s : string) (h : list AdminCall)
  : (option Writer * option error) * list AdminCall :=
  let h1 := h ++ [CallCreateLogStream (Group_group g) s] in
  match CreateLogStream (Group_client g) h (Group_group g) s with
  | Some e =>
      match exceptAlreadyExists e with
      | Some e' => ((None, Some e'), h1)
      | None =>
          ((Some (NewWriter (Group_group g) s (API (Group_client g))), None),
           h1)
      end
  | None =>
      ((Some (NewWriter (Group_group g) s (API (Group_client g))), None), h1)
  end.

(** ** Groups, the revision with writer options *)

Module Options.

(** [WriterOptions]; the duration in nanoseconds. *)
Record WriterOptions := {
  FlushEvery : Z
}.

(** [defaultFlushEvery = 5 * time.Second] *)
Definition defaultFlushEvery : Z := 5 * 1000000000.

(** [<-chan time.Time] as [time.Tick] returns it: [None] is the nil
    channel, from which a receive blocks for ever; [Some d] delivers a
    tick every [d] nanoseconds. *)
Definition Ticker := option Z.

(** [time.Tick(d)]: "Unlike NewTicker, Tick will return nil if d <= 0." *)
Definition Tick (d : Z) : Ticker :=
  if (d <=? 0)%Z then None else Some d.

(** [NewWriter(group, stream, client, opts)]: the writer and its
    [flushTicker]. *)
Definition NewWriter (g s : string) (c : CloudWatchLogsAPI)
    (opts : WriterOptions) : Writer * Ticker :=
  ({| group := g; stream := s; sequenceToken := None; client := c;
      closed := false; err := None; events := [] |},
   Tick (FlushEvery opts)).

(** One move of [w.start()] for a writer with [flushTicker = t]: on the
    nil channel [<-w.flushTicker] never returns, so the waiting loop
    stays where it is. *)
Definition start_step (t : Ticker) (s : Loop * Writer * World)
  : Loop * Writer * World :=
  let '(l, w, wd) := s in
  match l with
  | AtCheck => if closed w then (Returned None, w, wd) else (Waiting, w, wd)
  | Waiting =>
      match t with
      | None => s
      | Some _ => let '(w', wd') := Flush w wd in (AtCheck, w', wd')
      end
  | Returned _ => s
  end.

Definition step (t : Ticker) (ev : Event) (s : Loop * Writer * World)
  : Loop * Writer * World :=
  match ev with
  | Caller o => let '(l, w, wd) := s in
                let '(w', wd') := run_op o (w, wd) in (l, w', wd')
  | Go => start_step t s
  end.

Definition run (t : Ticker) (sched : list Event)
    (s : Loop * Writer * World) : Loop * Writer * World :=
  fold_left (fun s ev => step t ev s) sched s.

(** [NewGroup(group, client)] *)
Definition NewGroup (g : string) (c : CloudWatchLogs)
  : option Group * option error :=
  (Some {| Group_group := g; Group_client := c |}, None).

(** [AttachGroup(group, client)] *)
Definition AttachGroup (g : string) (c : CloudWatchLogs)
    (h : list AdminCall)
  : (option Group * option error) * list AdminCall :=
  let h1 := h ++ [CallDescribeLogGroups g] in
  match DescribeLogGroups c h g with
  | inr e => ((None, Some e), h1)
  | inl groups =>
      if existsb (fun lg => String.eqb (gLogGroupName lg) g) groups
      then (NewGroup g c, h1)
      else
        let h2 := h1 ++ [CallCreateLogGroup g] in
        match CreateLogGroup c h1 g with
        | Some e =>
            match exceptAlreadyExists e with
            | Some e' => ((None, Some e'), h2)
            | None => (NewGroup g c, h2)
            end
        | None => (NewGroup g c, h2)
        end
  end.

(** [g.AttachStreamWithOptions(stream, opts)] *)
Definition AttachStreamWithOptions (g : Group) (s : string)
    (opts : WriterOptions) (h : list AdminCall)
  : (option (Writer * Ticker) * option error) * list AdminCall :=
  let h1 := h ++ [CallCreateLogStream (Group_group g) s] in
  match CreateLogStream (Group_client g) h (Group_group g) s with
  | Some e =>
      match exceptAlreadyExists e with
      | Some e' => ((None, Some e'), h1)
      | None =>
          ((Some (NewWriter (Group_group g) s (API (Group_client g)) opts),
            None), h1)
      end
  | None =>
      ((Some (NewWriter (Group_group g) s (API (Group_client g)) opts), None),
       h1)
  end.

(** [g.AttachStream(stream)] *)
Definition AttachStream (g : Group) (s : string) (h : list AdminCall)
  : (option (Writer * Ticker) * option error) * list AdminCall :=
  AttachStreamWithOptions g s {| FlushEvery := defaultFlushEvery |} h.

End Options.

(** ** More test doubles and auxiliary definitions *)

(** A provisioning client whose three operations give fixed answers. *)
Definition admin (createGroup createStream : option error)
    (describe : list LogGroup + error) : CloudWatchLogs :=
  {| API := scripted [] noStreams;
     CreateLogGroup := fun _ _ => createGroup;
     CreateLogStream := fun _ _ _ => createStream;
     DescribeLogGroups := fun _ _ => describe |}.

Definition alreadyExists : error :=
  AwsErr ErrCodeResourceAlreadyExistsException "The specified log stream already exists".

Definition accessDenied : error := AwsErr "AccessDeniedException" "denied".

(** A byte slice without line terminator. *)
Definition noTerminator (l : list byte) : bool :=
  forallb (fun c => negb (Byte.eqb c newline)) l.

(** A string without the separator [" "]. *)
Fixpoint noSpace (s : string) : bool :=
  match s with
  | EmptyString => true
  | String c s' => negb (Ascii.eqb c space) && noSpace s'
  end.

(** An append call of [w]'s own: a non-empty batch for its group and
    stream. *)
Definition ownPut (w : Writer) (c : Call) : Prop :=
  exists evs t,
    evs <> [] /\
    c = CallPut {| LogEvents := evs; LogGroupName := group w;
                   LogStreamName := stream w; SequenceToken := t |}.

(** The caller's operation [Close]. *)
Definition isClose (ev : Event) : bool :=
  match ev with Caller OpClose => true | _ => false end.

(** A schedule in which some caller closes the writer. *)
Definition hasClose (sched : list Event) : bool := existsb isClose sched.

(** The callers' operations of a schedule, in order. *)
Definition callerOps (sched : list Event) : list Op :=
  flat_map (fun ev => match ev with Caller o => [o] | Go => [] end) sched.

(** The writer and the world of a state of [run]. *)
Definition writerOf (s : Loop * Writer * World) : Writer := snd (fst s).
Definition worldOf (s : Loop * Writer * World) : World := snd s.

(** * Line splitting *)

Section Lines.

Lemma ReadBytes_lines (r : list byte) :
  forall b e r', bufio.ReadBytes r newline = (b, e, r') ->
    r = b ++ r' /\
    ((e = None /\ b <> [] /\ lines r = b :: lines r') \/
     (e = Some EOF /\ r' = [] /\
      lines r = match b with [] => [] | _ => [b] end)).
Proof.
  induction r as [|c r IH]; intros b e r' H; simpl in H.
  - inversion H; subst. split; [reflexivity|]. right. auto.
  - simpl. destruct (Byte.eqb c newline) eqn:Hc.
    + inversion H; subst. split; [reflexivity|].
      left. repeat split; congruence.
    + destruct (bufio.ReadBytes r newline) as [[l e0] r0] eqn:Hr.
      inversion H; subst.
      destruct (IH l e r' eq_refl) as [Happ [[He [Hl Hlines]]|[He [Hr' Hlines]]]].
      * split; [simpl; congruence|]. left.
        repeat split; [assumption|discriminate|now rewrite Hlines].
      * split; [simpl; congruence|]. right.
        repeat split; [assumption|assumption|].
        rewrite Hlines. now destruct l.
Qed.

Lemma lines_concat (r : list byte) : List.concat (lines r) = r.
Proof.
  induction r as [|c r IH]; simpl; [reflexivity|].
  destruct (Byte.eqb c newline).
  - simpl. now rewrite IH.
  - destruct (lines r) as [|l ls]; simpl in *; subst; reflexivity.
Qed.

Lemma lines_nonempty (r : list byte) : Forall (fun l => l <> []) (lines r).
Proof.
  induction r as [|c r IH]; simpl; [constructor|].
  destruct (Byte.eqb c newline).
  - constructor; [discriminate|assumption].
  - destruct (lines r) as [|l ls].
    + constructor; [discriminate|constructor].
    + inversion IH; subst. constructor; [discriminate|assumption].
Qed.

Lemma lines_nil (r : list byte) : lines r = [] -> r = [].
Proof.
  intro H. rewrite <- (lines_concat r), H. reflexivity.
Qed.

Lemma endsLine_cons (c : byte) (a : list byte) :
  a <> [] -> endsLine (c :: a) = endsLine a.
Proof.
  unfold endsLine. destruct a as [|d a]; [congruence|reflexivity].
Qed.

(** A chunk that ends a line splits the reads of what follows it. *)
Lemma lines_app (a b : list byte) :
  endsLine a = true -> lines (a ++ b) = lines a ++ lines b.
Proof.
  induction a as [|c a IH]; intro H; [reflexivity|].
  simpl. destruct (Byte.eqb c newline) eqn:Hc.
  - destruct a as [|d a]; [reflexivity|].
    rewrite IH; [reflexivity|]. now rewrite <- (endsLine_cons c).
  - destruct a as [|d a].
    + unfold endsLine in H. simpl in H. congruence.
    + rewrite IH by (now rewrite <- (endsLine_cons c)).
      destruct (lines (d :: a)) as [|l ls] eqn:Hl; [|reflexivity].
      apply lines_nil in Hl. discriminate.
Qed.

(** One read per terminator, and one more for an unterminated rest. *)
Lemma lines_length (b : list byte) :
  List.length (lines b)
  = terminators b + (if endsLine b then 0 else 1).
Proof.
  unfold terminators.
  induction b as [|c b IH]; [reflexivity|].
  simpl. destruct (Byte.eqb c newline) eqn:Hc.
  - simpl. rewrite IH. destruct b as [|d b]; [|reflexivity].
    unfold endsLine. simpl. now rewrite Hc.
  - destruct b as [|d b].
    + unfold endsLine. simpl. now rewrite Hc.
    + rewrite endsLine_cons by discriminate.
      rewrite <- IH.
      destruct (lines (d :: b)) as [|l ls] eqn:Hl; [|reflexivity].
      apply lines_nil in Hl. discriminate.
Qed.

End Lines.

(** * The buffer loop *)

Section Buffer.

Lemma set_events_app (w : Writer) (xs ys : list InputLogEvent) :
  set_events (set_events w (events w ++ xs))
             (events (set_events w (events w ++ xs)) ++ ys)
  = set_events w (events w ++ xs ++ ys).
Proof. unfold set_events. simpl. now rewrite app_assoc. Qed.

Lemma set_events_same (w : Writer) : set_events w (events w ++ []) = w.
Proof. destruct w. unfold set_events. simpl. now rewrite app_nil_r. Qed.

Lemma advance_0 (wd : World) : advance wd 0 = wd.
Proof. destruct wd. unfold advance. simpl. now rewrite Nat.add_0_r. Qed.

(** With more fuel than bytes the loop ends at [io.EOF], having
    consumed every byte and added one event per non-empty read. *)
Lemma buffer_loop_enough_fuel (fuel : nat) :
  forall r n w wd, List.length r < fuel ->
    buffer_loop fuel r n w wd
    = Some ((n + Z.of_nat (List.length r))%Z,
            set_events w (events w
                          ++ mkEvents (lines r) (clock wd) (clockReads wd)),
            advance wd (List.length (lines r))).
Proof.
  induction fuel as [|fuel IH]; intros r n w wd Hlt; [lia|].
  cbn [buffer_loop].
  destruct (bufio.ReadBytes r newline) as [[b e] r'] eqn:Hr.
  destruct (ReadBytes_lines r Hr)
    as [Happ [[He [Hb Hl]]|[He [Hr' Hl]]]]; subst e.
  - destruct b as [|c b]; [congruence|]. cbn [List.length Nat.eqb].
    assert (Hlen : List.length r = S (List.length b) + List.length r')
      by (rewrite Happ; cbn [List.length app]; rewrite length_app; lia).
    unfold now at 1. rewrite IH by lia.
    rewrite Hl. cbn [mkEvents List.length].
    f_equal. f_equal; [f_equal|].
    + rewrite Hlen. lia.
    + unfold add. rewrite set_events_app. reflexivity.
    + unfold advance. simpl. now rewrite Nat.add_succ_r.
  - subst r'. rewrite app_nil_r in Happ. subst b. rewrite Hl.
    destruct r as [|c r].
    + cbn. now rewrite Z.add_0_r, set_events_same, advance_0.
    + cbn [List.length Nat.eqb mkEvents]. unfold now, add, advance.
      cbn. rewrite Nat.add_1_r. reflexivity.
Qed.

(** What [buffer] does to the writer and the world. *)
Lemma buffer_spec (w : Writer) (wd : World) (b : list byte) :
  buffer w wd b
  = ((Z.of_nat (List.length b), None),
     set_events w (events w
                   ++ mkEvents (lines b) (clock wd) (clockReads wd)),
     advance wd (List.length (lines b))).
Proof.
  unfold buffer, bufio.NewReader.
  rewrite buffer_loop_enough_fuel by lia. reflexivity.
Qed.

Lemma mkEvents_messages (ls : list (list byte)) (clk : nat -> Z) :
  forall k, map Message (mkEvents ls clk k) = map string_of_list_byte ls.
Proof.
  induction ls as [|l ls IH]; intro k; simpl; [reflexivity|].
  now rewrite IH.
Qed.

Lemma mkEvents_length (ls : list (list byte)) (clk : nat -> Z) :
  forall k, List.length (mkEvents ls clk k) = List.length ls.
Proof.
  induction ls as [|l ls IH]; intro k; simpl; [reflexivity|].
  now rewrite IH.
Qed.

Lemma mkEvents_nonempty (ls : list (list byte)) (clk : nat -> Z) :
  Forall (fun l => l <> []) ls ->
  forall k, Forall (fun e => Message e <> EmptyString) (mkEvents ls clk k).
Proof.
  induction 1 as [|l ls Hl _ IH]; intro k; simpl; constructor.
  - simpl. destruct l as [|c l]; [congruence|discriminate].
  - apply IH.
Qed.

(** [Write] on an open writer is [buffer]. *)
Lemma Write_open (w : Writer) (wd : World) (b : list byte) :
  closed w = false -> err w = None -> Write w wd b = buffer w wd b.
Proof. intros Hc He. unfold Write. now rewrite Hc, He. Qed.

End Buffer.

(** * The append protocol *)

Section Append.

(** The first call of [flush] carries the whole batch and the held
    token; it is followed by at most one more call, for the same batch. *)
Lemma flush_calls (w : Writer) (wd : World) (evs : list InputLogEvent) :
  exists rest,
    calls (snd (flush w wd evs))
    = calls wd ++ CallPut (putInput w evs (sequenceToken w)) :: rest
    /\ putsOf w evs rest /\ List.length rest <= 1.
Proof.
  unfold flush, putLogEvents, putsOf.
  destruct (PutLogEvents (client w) (calls wd)
              (putInput w evs (sequenceToken w))) as [resp|e] eqn:H1.
  - exists []. simpl. auto.
  - destruct e as [| |code message|info|text];
      try (exists []; simpl; now auto).
    destruct (String.eqb code dataAlreadyAcceptedCode) eqn:Hd.
    + exists []. destruct (negb _); simpl; auto.
    + destruct (String.eqb code invalidSequenceTokenCode) eqn:Hi.
      * exists [CallPut (putInput w evs (Some (lastPart message)))].
        split; [|split; [|simpl; lia]].
        -- cbn [negb].
           destruct (PutLogEvents (client w) _
                       (putInput w evs (Some (lastPart message))))
             as [r2|e2]; [|destruct e2 as [| |c2 m2|i2|t2]];
             try destruct (negb _); simpl; now rewrite <- app_assoc.
        -- constructor; [eexists; reflexivity|constructor].
      * exists []. simpl. auto.
Qed.

Lemma Flush_nonempty (w : Writer) (wd : World) :
  events w <> [] -> Flush w wd = flush (set_events w []) wd (events w).
Proof.
  intro H. unfold Flush, drain.
  destruct (events w) as [|e evs]; [congruence|reflexivity].
Qed.

Lemma Flush_empty (w : Writer) (wd : World) :
  events w = [] -> Flush w wd = (w, wd).
Proof.
  intro H. unfold Flush, drain. rewrite H. simpl.
  destruct w. unfold set_events. simpl in *. now subst.
Qed.

End Append.

(** * Claims on the append protocol *)

(** C1.  When the first append of a flush fails with the stale-token
    conflict ([InvalidSequenceTokenException]) whose message carries the
    token [lastPart message], [flush] makes exactly one more append call,
    with exactly that token.  If the retry succeeds the writer holds the
    token of the retry's response; if it fails, its error is recorded and
    nothing more is called. *)
Theorem flush_stale_token_retries_once
    (w : Writer) (wd : World) (evs : list InputLogEvent) (message : string) :
  PutLogEvents (client w) (calls wd) (putInput w evs (sequenceToken w))
  = inr (AwsErr invalidSequenceTokenCode message) ->
  let first := CallPut (putInput w evs (sequenceToken w)) in
  let retry := putInput w evs (Some (lastPart message)) in
  let '(w', wd') := flush w wd evs in
  calls wd' = calls wd ++ [first; CallPut retry] /\
  match PutLogEvents (client w) (calls wd ++ [first]) retry with
  | inl resp => sequenceToken w' = NextSequenceToken resp /\ err w' = err w
  | inr e => err w' = Some e /\ sequenceToken w' = sequenceToken w
  end.
Proof.
  intros H first retry. subst first retry.
  unfold flush, putLogEvents. rewrite H.
  replace (String.eqb invalidSequenceTokenCode dataAlreadyAcceptedCode)
    with false by reflexivity.
  rewrite String.eqb_refl. cbn [negb record_call calls].
  destruct (PutLogEvents (client w) _
              (putInput w evs (Some (lastPart message)))) as [r2|e2].
  - simpl. rewrite <- app_assoc. auto.
  - destruct e2 as [| |c2 m2|i2|t2]; try destruct (negb _); simpl;
      rewrite <- app_assoc; auto.
Qed.

Lemma flush_stale_token_retries_once_witness :
  let w := writerWith [stale "T"; accepted "T2"] (Some "T0") [] in
  let '(w', wd') := flush w world0 [ev1] in
  calls wd' = [CallPut (putInput w [ev1] (Some "T0"));
               CallPut (putInput w [ev1] (Some "T"))] /\
  sequenceToken w' = Some "T2" /\ err w' = None.
Proof.
  exact (flush_stale_token_retries_once
           (writerWith [stale "T"; accepted "T2"] (Some "T0") [])
           world0 [ev1] eq_refl).
Defined.

(** A retry that fails, here with the stale-token conflict again, is not
    repeated: two calls, and the second error is recorded. *)
Example flush_stale_token_twice :
  let w := writerWith [stale "T"; stale "U"; accepted "T2"] (Some "T0") [] in
  let '(w', wd') := flush w world0 [ev1] in
  List.length (calls wd') = 2 /\
  option_map (@inr PutLogEventsOutput error) (err w') = Some (stale "U") /\
  sequenceToken w' = Some "T0".
Proof. repeat split. Qed.

(** C2.  When the append of a flush fails with the duplicate-submission
    conflict ([DataAlreadyAcceptedException]) whose message carries the
    token [lastPart message], no second call is made, no error is
    recorded, and the writer holds that token. *)
Theorem flush_already_accepted_adopts_token
    (w : Writer) (wd : World) (evs : list InputLogEvent) (message : string) :
  PutLogEvents (client w) (calls wd) (putInput w evs (sequenceToken w))
  = inr (AwsErr dataAlreadyAcceptedCode message) ->
  let '(w', wd') := flush w wd evs in
  calls wd' = calls wd ++ [CallPut (putInput w evs (sequenceToken w))] /\
  err w' = err w /\
  sequenceToken w' = Some (lastPart message).
Proof.
  intro H. unfold flush, putLogEvents. rewrite H.
  rewrite String.eqb_refl.
  replace (String.eqb dataAlreadyAcceptedCode invalidSequenceTokenCode)
    with false by reflexivity.
  simpl. auto.
Qed.

Lemma flush_already_accepted_adopts_token_witness :
  let w := writerWith [duplicate "T"] (Some "T0") [] in
  let '(w', wd') := flush w world0 [ev1] in
  calls wd' = [CallPut (putInput w [ev1] (Some "T0"))] /\
  err w' = None /\
  sequenceToken w' = Some "T".
Proof.
  exact (flush_already_accepted_adopts_token
           (writerWith [duplicate "T"] (Some "T0") [])
           world0 [ev1] eq_refl).
Defined.

(** * The writer across operations *)

Section Sticky.

(** [flush] changes nothing of the writer but its error or its token. *)
Lemma flush_writer (w : Writer) (wd : World) (evs : list InputLogEvent) :
  (exists e, fst (flush w wd evs) = set_err w (Some e)) \/
  (exists t, fst (flush w wd evs) = set_sequenceToken w t).
Proof.
  unfold flush, putLogEvents.
  destruct (PutLogEvents (client w) (calls wd) _) as [resp|e].
  - right. eexists. reflexivity.
  - destruct e as [| |code message|info|text];
      try (left; eexists; reflexivity).
    destruct (String.eqb code dataAlreadyAcceptedCode).
    + right. eexists. reflexivity.
    + destruct (String.eqb code invalidSequenceTokenCode).
      * destruct (PutLogEvents (client w) _ _) as [r2|e2].
        -- right. eexists. reflexivity.
        -- left. eexists. reflexivity.
      * left. eexists. reflexivity.
Qed.

Lemma flush_closed (w : Writer) (wd : World) (evs : list InputLogEvent) :
  closed (fst (flush w wd evs)) = closed w.
Proof.
  destruct (flush_writer w wd evs) as [[e H]|[t H]]; now rewrite H.
Qed.

Lemma flush_events (w : Writer) (wd : World) (evs : list InputLogEvent) :
  events (fst (flush w wd evs)) = events w.
Proof.
  destruct (flush_writer w wd evs) as [[e H]|[t H]]; now rewrite H.
Qed.

Lemma Flush_closed (w : Writer) (wd : World) :
  closed (fst (Flush w wd)) = closed w.
Proof.
  unfold Flush, drain. destruct (List.length (events w) =? 0)%nat.
  - reflexivity.
  - now rewrite flush_closed.
Qed.

Lemma Flush_events (w : Writer) (wd : World) :
  events (fst (Flush w wd)) = [].
Proof.
  unfold Flush, drain. destruct (List.length (events w) =? 0)%nat.
  - reflexivity.
  - now rewrite flush_events.
Qed.

(** A first append that fails outside the two conflicts is recorded. *)
Lemma flush_non_conflict (w : Writer) (wd : World)
    (evs : list InputLogEvent) (e : error) :
  PutLogEvents (client w) (calls wd) (putInput w evs (sequenceToken w))
  = inr e ->
  nonConflict e ->
  fst (flush w wd evs) = set_err w (Some e).
Proof.
  intros H Hn. unfold flush, putLogEvents. rewrite H.
  destruct e as [| |code message|info|text]; try reflexivity.
  destruct Hn as [Hd Hi].
  apply String.eqb_neq in Hd, Hi. rewrite Hd, Hi. reflexivity.
Qed.

(** A failed writer with an empty buffer: no operation changes its
    error, fills its buffer or reaches the network. *)
Lemma failed_run_op (o : Op) (w : Writer) (wd : World) (e : error) :
  err w = Some e -> events w = [] ->
  let '(w', wd') := run_op o (w, wd) in
  err w' = Some e /\ events w' = [] /\ wd' = wd.
Proof.
  intros He Hev. destruct o as [b| |]; simpl.
  - unfold Write. rewrite He. destruct (closed w); auto.
  - rewrite Flush_empty by assumption. auto.
  - unfold Close. rewrite Flush_empty by assumption. auto.
Qed.

Lemma failed_run_ops (os : list Op) :
  forall (w : Writer) (wd : World) (e : error),
    err w = Some e -> events w = [] ->
    let '(w', wd') := run_ops os (w, wd) in
    err w' = Some e /\ events w' = [] /\ wd' = wd.
Proof.
  induction os as [|o os IH]; intros w wd e He Hev; [simpl; auto|].
  unfold run_ops. cbn [fold_left].
  pose proof (failed_run_op o w wd He Hev) as H.
  destruct (run_op o (w, wd)) as [w1 wd1].
  destruct H as [He1 [Hev1 Hwd1]]. subst wd1.
  apply (IH w1 wd e He1 Hev1).
Qed.

End Sticky.

(** C3 (amended).  Once the append of a flush fails with an error that is
    neither conflict, the error is the writer's stored failure: [Flush]
    has no result, so nothing is returned from the flush; through every
    later write, flush and close the error stays stored and no network
    call is made; a later write returns the stored error with 0 bytes as
    long as the writer is not closed, and the closed-pipe error once it
    is. *)
Theorem flush_failure_is_sticky
    (w : Writer) (wd : World) (e : error) (os : list Op) (b : list byte) :
  events w <> [] ->
  PutLogEvents (client w) (calls wd)
    (putInput w (events w) (sequenceToken w)) = inr e ->
  nonConflict e ->
  let '(w1, wd1) := Flush w wd in
  err w1 = Some e /\
  let '(w2, wd2) := run_ops os (w1, wd1) in
  err w2 = Some e /\ calls wd2 = calls wd1 /\
  Write w2 wd2 b
  = ((0%Z, Some (if closed w2 then ErrClosedPipe else e)), w2, wd2).
Proof.
  intros Hev H Hn.
  pose proof (Flush_events w wd) as Hev1.
  rewrite (Flush_nonempty w wd Hev) in *.
  pose proof (flush_non_conflict (set_events w []) wd (events w) H Hn) as Hf.
  destruct (flush (set_events w []) wd (events w)) as [w1 wd1].
  simpl in Hf, Hev1. assert (He1 : err w1 = Some e) by now subst w1.
  split; [assumption|].
  pose proof (failed_run_ops os w1 wd1 He1 Hev1) as Hr.
  destruct (run_ops os (w1, wd1)) as [w2 wd2].
  destruct Hr as [He2 [_ Hwd]]. subst wd2.
  repeat split; [assumption|].
  unfold Write. rewrite He2. now destruct (closed w2).
Qed.

Lemma flush_failure_is_sticky_witness :
  let '(w1, wd1) := Flush (writerWith [inr throttled] None [ev1]) world0 in
  err w1 = Some throttled /\
  let '(w2, wd2) :=
    run_ops [OpWrite (bytes "a/"); OpFlush; OpWrite (bytes "b/")] (w1, wd1) in
  err w2 = Some throttled /\ calls wd2 = calls wd1 /\
  Write w2 wd2 (bytes "c/")
  = ((0%Z, Some (if closed w2 then ErrClosedPipe else throttled)), w2, wd2).
Proof.
  refine (flush_failure_is_sticky
            (writerWith [inr throttled] None [ev1]) world0
            [OpWrite (bytes "a/"); OpFlush; OpWrite (bytes "b/")]
            (bytes "c/") _ eq_refl _).
  - discriminate.
  - split; discriminate.
Defined.

(** After a failed flush and [Close], [Write] returns [io.ErrClosedPipe],
    not the stored error; and [Flush] returns nothing at all. *)
Lemma write_after_failure_and_close :
  let '(w1, wd1) := Flush (writerWith [inr timeout] None [ev1]) world0 in
  let '(w2, wd2) := Close w1 wd1 in
  err w2 = Some timeout /\
  fst (fst (Write w2 wd2 (bytes "x/"))) = (0%Z, Some ErrClosedPipe) /\
  fst (fst (Write w2 wd2 (bytes "x/"))) <> (0%Z, Some timeout).
Proof. repeat split. discriminate. Qed.

(** * Claims on batches and the token lookup *)

(** C4 (amended).  The limits of one append call are declared as
    constants (10,000 events, 1,048,576 bytes, 26 bytes per event,
    262,144 - 26 bytes per message) and nothing enforces them: a flush of
    a non-empty buffer hands the whole drained buffer, whatever its size,
    to a single append call, repeated at most once with the same batch. *)
Theorem Flush_submits_whole_buffer (w : Writer) (wd : World) :
  events w <> [] ->
  (maximumLogEventsPerPut = 10000 /\ maximumBytesPerPut = 1048576 /\
   perEventBytes = 26 /\ maximumBytesPerEvent = 262144 - 26)%Z /\
  let '(w', wd') := Flush w wd in
  events w' = [] /\
  exists rest,
    calls wd'
    = calls wd ++ CallPut (putInput w (events w) (sequenceToken w)) :: rest
    /\ putsOf w (events w) rest /\ List.length rest <= 1.
Proof.
  intro Hev. split; [repeat split|].
  pose proof (Flush_events w wd) as He.
  rewrite (Flush_nonempty w wd Hev) in *.
  pose proof (flush_calls (set_events w []) wd (events w)) as Hc.
  destruct (flush (set_events w []) wd (events w)) as [w' wd'].
  split; [exact He|exact Hc].
Qed.

Lemma Flush_submits_whole_buffer_witness :
  (maximumLogEventsPerPut = 10000 /\ maximumBytesPerPut = 1048576 /\
   perEventBytes = 26 /\ maximumBytesPerEvent = 262144 - 26)%Z /\
  let '(w', wd') := Flush (writerWith [stale "T"] None [ev1; ev1]) world0 in
  events w' = [] /\
  exists rest,
    calls wd'
    = [] ++ CallPut (putInput (writerWith [stale "T"] None [ev1; ev1])
                       [ev1; ev1] None) :: rest
    /\ putsOf (writerWith [stale "T"] None [ev1; ev1]) [ev1; ev1] rest
    /\ List.length rest <= 1.
Proof.
  refine (Flush_submits_whole_buffer
            (writerWith [stale "T"] None [ev1; ev1]) world0 _).
  discriminate.
Defined.

(** 10,001 lines written and flushed reach the client as one batch of
    10,001 events, outside the limits. *)
Lemma oversized_batch_submitted :
  let b := repeat newline (Z.to_nat (maximumLogEventsPerPut + 1)) in
  let '(_, w1, wd1) := Write w0 world0 b in
  let '(w2, wd2) := Flush w1 wd1 in
  map (fun c => match c with
                | CallPut i => (Z.of_nat (List.length (LogEvents i)),
                                withinLimits (LogEvents i))
                | CallDescribe _ => (0%Z, true)
                end) (calls wd2)
  = [(10001%Z, false)].
Proof. vm_compute. reflexivity. Qed.

(** C5 (amended).  Writing "a\nb\nc" in one call to an open writer with
    an empty buffer and flushing at once hands the client one batch of
    exactly 3 events whose messages are "a\n", "b\n" and "c", in that
    order: a line keeps its terminator. *)
Theorem write_abc_then_flush (w : Writer) (wd : World) :
  closed w = false -> err w = None -> events w = [] ->
  let '(_, w1, wd1) := Write w wd (bytes "a/b/c") in
  let '(w2, wd2) := Flush w1 wd1 in
  exists rest,
    putBatches (calls wd2)
    = putBatches (calls wd) ++ [str "a/"; str "b/"; str "c"] :: rest
    /\ Forall (eq [str "a/"; str "b/"; str "c"]) rest.
Proof.
  intros Hc He Hev.
  rewrite Write_open, buffer_spec by assumption. rewrite Hev.
  set (evs := [] ++ mkEvents (lines (bytes "a/b/c")) (clock wd) (clockReads wd)).
  assert (Hm : map Message evs = [str "a/"; str "b/"; str "c"])
    by (unfold evs; rewrite app_nil_l, mkEvents_messages; reflexivity).
  assert (Hne : events (set_events w evs) <> [])
    by (simpl; intro H0; rewrite H0 in Hm; discriminate).
  pose proof (Flush_nonempty (set_events w evs)
                (advance wd (List.length (lines (bytes "a/b/c")))) Hne) as HF.
  rewrite HF.
  pose proof (flush_calls (set_events (set_events w evs) [])
                (advance wd (List.length (lines (bytes "a/b/c"))))
                (events (set_events w evs))) as [rest [Hcalls [Hputs _]]].
  destruct (flush _ _ _) as [w2 wd2]. simpl in Hcalls.
  exists (putBatches rest). rewrite Hcalls.
  unfold putBatches at 1. rewrite flat_map_app. cbn [flat_map LogEvents putInput].
  rewrite Hm. split; [reflexivity|].
  clear -Hputs Hm. induction Hputs as [|c cs [t Hc] _ IH]; [constructor|].
  subst c. cbn [putBatches flat_map app LogEvents putInput].
  simpl events. rewrite Hm. constructor; [reflexivity|exact IH].
Qed.

Lemma write_abc_then_flush_witness :
  let '(_, w1, wd1) := Write w0 world0 (bytes "a/b/c") in
  let '(w2, wd2) := Flush w1 wd1 in
  exists rest,
    putBatches (calls wd2)
    = putBatches [] ++ [str "a/"; str "b/"; str "c"] :: rest
    /\ Forall (eq [str "a/"; str "b/"; str "c"]) rest.
Proof.
  exact (write_abc_then_flush w0 world0 eq_refl eq_refl eq_refl).
Defined.

(** The batch received for "a\nb\nc" is not "a", "b", "c". *)
Lemma write_abc_keeps_terminators :
  let '(_, w1, wd1) := Write w0 world0 (bytes "a/b/c") in
  let '(w2, wd2) := Flush w1 wd1 in
  putBatches (calls wd2) = [[str "a/"; str "b/"; "c"]] /\
  putBatches (calls wd2) <> [["a"; "b"; "c"]].
Proof. split; [reflexivity|discriminate]. Qed.

(** C6 (amended).  When a flush runs while no sequence token is held, the
    writer makes no lookup: [flush] hands the absent token to the append
    call at once, and no describe call is made by it.  The lookup belongs
    to [getSequenceToken] of the earlier revision, whose [flush] first
    describes the streams of the group by the stream's name, then
    appends with the token found; there a failed lookup lets the append
    go on with an absent token. *)
Theorem flush_without_token
    (w : Writer) (wd : World) (evs : list InputLogEvent) :
  sequenceToken w = None ->
  (let '(w', wd') := flush w wd evs in
   exists rest,
     calls wd' = calls wd ++ CallPut (putInput w evs None) :: rest
     /\ existsb isDescribe rest = false) /\
  (let '(e, w', wd') := Earlier.flush w wd evs in
   let d := {| dLogGroupName := group w; LogStreamNamePrefix := stream w |} in
   let token :=
     match DescribeLogStreams (client w) (calls wd) d with
     | inl out =>
         match find (fun s => String.eqb (sLogStreamName s) (stream w))
                    (LogStreams out) with
         | Some s => UploadSequenceToken s
         | None => None
         end
     | inr _ => None
     end in
   calls wd' = calls wd ++ [CallDescribe d; CallPut (putInput w evs token)]).
Proof.
  intro Ht. split.
  - pose proof (flush_calls w wd evs) as [rest [Hc [Hp _]]].
    destruct (flush w wd evs) as [w' wd']. simpl in Hc.
    exists rest. rewrite Ht in Hc. split; [exact Hc|].
    clear -Hp. induction Hp as [|c cs [t Hc] _ IH]; [reflexivity|].
    subst c. exact IH.
  - unfold Earlier.flush, Earlier.getSequenceToken. rewrite Ht.
    destruct (DescribeLogStreams (client w) (calls wd) _) as [out|e];
      cbn [record_call calls];
      destruct (PutLogEvents (client w) _ _) as [resp|e'];
      try destruct (RejectedInfo resp);
      simpl; now rewrite <- app_assoc.
Qed.

Lemma flush_without_token_witness :
  let w := writerWith [] None [] in
  (let '(w', wd') := flush w world0 [ev1] in
   exists rest,
     calls wd' = [] ++ CallPut (putInput w [ev1] None) :: rest
     /\ existsb isDescribe rest = false) /\
  (let '(e, w', wd') := Earlier.flush w world0 [ev1] in
   calls wd'
   = [CallDescribe {| dLogGroupName := "g"; LogStreamNamePrefix := "s" |};
      CallPut (putInput w [ev1] None)]).
Proof.
  exact (flush_without_token (writerWith [] None []) world0 [ev1] eq_refl).
Defined.

(** A flush with no token held goes straight to the append call. *)
Lemma flush_without_token_makes_no_lookup :
  let '(w', wd') := Flush (writerWith [] None [ev1]) world0 in
  calls wd' = [CallPut (putInput w0 [ev1] None)] /\
  existsb isDescribe (calls wd') = false.
Proof. split; reflexivity. Qed.

(** * The background loop *)

Section Loop.

Lemma run_op_closed (o : Op) (w : Writer) (wd : World) :
  closed w = true -> closed (fst (run_op o (w, wd))) = true.
Proof.
  intro Hc. destruct o as [b| |]; simpl.
  - unfold Write. now rewrite Hc.
  - now rewrite Flush_closed.
  - unfold Close. now rewrite Flush_closed.
Qed.

Lemma step_loopInv (ev : Event) (s : Loop * Writer * World) :
  loopInv s -> loopInv (step ev s).
Proof.
  destruct s as [[l w] wd]. unfold loopInv. intro H.
  destruct ev as [o|]; unfold step, start_step.
  - pose proof (run_op_closed o w wd) as Hc.
    destruct (run_op o (w, wd)) as [w' wd']. simpl in Hc.
    intros r Hr. destruct (H r Hr) as [Hn Hcl]. auto.
  - destruct l as [| |r0].
    + destruct (closed w) eqn:Hc; simpl.
      * intros r Hr. inversion Hr. auto.
      * discriminate.
    + destruct (Flush w wd) as [w' wd']. simpl. discriminate.
    + exact H.
Qed.

Lemma run_loopInv (sched : list Event) :
  forall s, loopInv s -> loopInv (run sched s).
Proof.
  induction sched as [|ev sched IH]; intros s H; [exact H|].
  unfold run. cbn [fold_left]. apply IH, step_loopInv, H.
Qed.

Lemma Write_closed (w : Writer) (wd : World) (b : list byte) :
  closed (snd (fst (Write w wd b))) = closed w.
Proof.
  unfold Write. destruct (closed w) eqn:Hc; [exact Hc|].
  destruct (err w); [exact Hc|]. rewrite buffer_spec. exact Hc.
Qed.

(** Only [Close] changes [closed]. *)
Lemma step_closed (ev : Event) (l : Loop) (w : Writer) (wd : World) :
  closed (snd (fst (step ev (l, w, wd)))) = closed w || isClose ev.
Proof.
  destruct ev as [[b| |]|]; unfold step, start_step, run_op, isClose.
  - pose proof (Write_closed w wd b) as H.
    destruct (Write w wd b) as [[r w'] wd']. cbn in *.
    now rewrite orb_false_r.
  - pose proof (Flush_closed w wd) as H.
    destruct (Flush w wd) as [w' wd']. cbn in *. now rewrite orb_false_r.
  - unfold Close. pose proof (Flush_closed (set_closed w true) wd) as H.
    destruct (Flush (set_closed w true) wd) as [w' wd']. cbn in *.
    now rewrite orb_true_r.
  - rewrite orb_false_r. destruct l as [| |r]; cbv beta iota zeta.
    + destruct (closed w) eqn:Hc; exact Hc.
    + pose proof (Flush_closed w wd) as H.
      destruct (Flush w wd) as [w' wd']. exact H.
    + reflexivity.
Qed.

Lemma run_closed (sched : list Event) :
  forall l w wd,
    closed (snd (fst (run sched (l, w, wd)))) = closed w || hasClose sched.
Proof.
  induction sched as [|ev sched IH]; intros l w wd.
  - cbn. now rewrite orb_false_r.
  - unfold run. cbn [fold_left].
    fold (run sched (step ev (l, w, wd))).
    pose proof (step_closed ev l w wd) as H1.
    destruct (step ev (l, w, wd)) as [[l1 w1] wd1]. cbn in H1.
    rewrite IH, H1. unfold hasClose. cbn [existsb].
    now rewrite orb_assoc.
Qed.

End Loop.

(** C7 (amended).  In the later revision the goroutine [start] returns
    only by its test of [w.closed], which nothing but [Close] sets: under
    any interleaving of caller operations and moves of the loop, the
    writer is closed exactly when it was before or a caller closed it,
    whatever the flushes met; a returned loop returned [nil] from a
    closed writer; while the writer is not closed the loop is testing or
    waiting, and a tick makes it flush and wait again whether or not the
    flush stored an error; once the writer is closed the loop returns
    within its next two moves.  In the earlier revision a tick whose
    flush fails to append makes the loop return that error, the writer
    not being closed by it. *)
Theorem start_ignores_flush_errors :
  (forall (sched : list Event) (l : Loop) (w : Writer) (wd : World),
     (forall r, l <> Returned r) ->
     let '(l', w', wd') := run sched (l, w, wd) in
     closed w' = closed w || hasClose sched /\
     (forall r, l' = Returned r -> r = None /\ closed w' = true) /\
     (closed w' = false -> l' = AtCheck \/ l' = Waiting) /\
     (closed w' = false ->
      run [Go; Go] (Waiting, w', wd')
      = (Waiting, fst (Flush w' wd'), snd (Flush w' wd'))) /\
     (closed w' = true ->
      fst (fst (run [Go; Go] (l', w', wd'))) = Returned None)) /\
  (forall (w : Writer) (wd : World) (e : error),
     events w <> [] ->
     (let '(token, wd1) := Earlier.getSequenceToken w wd in
      PutLogEvents (client w) (calls wd1) (putInput w (events w) token)
      = inr e) ->
     let '(l', w', wd') := Earlier.start_step (Waiting, w, wd) in
     l' = Returned (Some e) /\ closed w' = closed w /\ err w' = Some e).
Proof.
  split.
  - intros sched l w wd Hl.
    assert (H0 : loopInv (l, w, wd)) by (intros r Hr; now apply Hl in Hr).
    pose proof (run_loopInv sched _ H0) as H.
    pose proof (run_closed sched l w wd) as Hcl.
    destruct (run sched (l, w, wd)) as [[l' w'] wd']. simpl in H.
    cbn in Hcl. split; [exact Hcl|]. split; [exact H|]. split; [|split].
    + intro Hc. destruct l' as [| |r]; auto.
      destruct (H r eq_refl) as [_ Hc']. congruence.
    + intro Hc. unfold run. cbn [fold_left step start_step].
      pose proof (Flush_closed w' wd') as HF.
      destruct (Flush w' wd') as [w2 wd2]. cbn in HF |- *.
      now rewrite HF, Hc.
    + intro Hc. destruct l' as [| |r]; simpl.
      * now rewrite Hc.
      * pose proof (Flush_closed w' wd') as HF.
        destruct (Flush w' wd') as [w2 wd2]. simpl in *.
        now rewrite HF, Hc.
      * now destruct (H r eq_refl) as [-> _].
  - intros w wd e Hne Hput.
    unfold Earlier.start_step, Earlier.Flush, drain, Earlier.flush.
    destruct (events w) as [|ev evs] eqn:Hev; [congruence|].
    cbn [List.length Nat.eqb].
    change (Earlier.getSequenceToken (set_events w []) wd)
      with (Earlier.getSequenceToken w wd).
    destruct (Earlier.getSequenceToken w wd) as [token wd1].
    change (client (set_events w [])) with (client w).
    change (putInput (set_events w []) (ev :: evs) token)
      with (putInput w (ev :: evs) token).
    rewrite Hput. cbn. auto.
Qed.

Lemma start_ignores_flush_errors_witness :
  (let '(l', w', wd') :=
     run [Go; Caller (OpWrite (bytes "x/")); Go; Go; Go; Go]
         (AtCheck, writerWith [inr timeout] None [], world0) in
   closed w' = false /\
   (forall r, l' = Returned r -> r = None /\ closed w' = true) /\
   (closed w' = false -> l' = AtCheck \/ l' = Waiting) /\
   (closed w' = false ->
    run [Go; Go] (Waiting, w', wd')
    = (Waiting, fst (Flush w' wd'), snd (Flush w' wd'))) /\
   (closed w' = true ->
    fst (fst (run [Go; Go] (l', w', wd'))) = Returned None)) /\
  (let '(l', w', wd') :=
     Earlier.start_step
       (Waiting, writerWith [inr timeout] None [ev1], world0) in
   l' = Returned (Some timeout) /\ closed w' = false /\
   err w' = Some timeout).
Proof.
  split.
  - refine (proj1 start_ignores_flush_errors
              [Go; Caller (OpWrite (bytes "x/")); Go; Go; Go; Go]
              AtCheck (writerWith [inr timeout] None []) world0 _).
    intros r. discriminate.
  - refine (proj2 start_ignores_flush_errors
              (writerWith [inr timeout] None [ev1]) world0 timeout
              _ eq_refl).
    discriminate.
Defined.

(** The loop after a failed flush: still waiting, the error stored. *)
Example start_survives_failed_flush :
  let '(l', w', wd') :=
    run [Go; Caller (OpWrite (bytes "x/")); Go; Go; Go; Go]
        (AtCheck, writerWith [inr timeout] None [], world0) in
  l' = Waiting /\ err w' = Some timeout /\ closed w' = false /\
  List.length (calls wd') = 1.
Proof. repeat split. Qed.

(** In the earlier revision, a new writer that buffered one line and
    whose append fails: the first tick ends the loop, with the error,
    and the writer is not closed. *)
Lemma earlier_start_returns_on_failed_flush :
  let '(_, w1, wd1) :=
    Write (NewWriter "g" "s" (scripted [inr timeout] noStreams)) world0
          (bytes "x/") in
  let '(l', w', wd') := Earlier.start_step (Waiting, w1, wd1) in
  l' = Returned (Some timeout) /\ closed w' = false /\
  forall r, l' = Returned r -> closed w' <> true.
Proof. repeat split. discriminate. Qed.

(** * Claims on writes *)

Section Splits.

(** The messages buffered by consecutive writes on an open writer. *)
Lemma writes_messages (bs : list (list byte)) :
  forall w wd, closed w = false -> err w = None ->
    map Message (events (fst (run_ops (map OpWrite bs) (w, wd))))
    = map Message (events w)
      ++ map string_of_list_byte (List.concat (map lines bs)).
Proof.
  induction bs as [|a bs IH]; intros w wd Hc He.
  - simpl. now rewrite app_nil_r.
  - unfold run_ops. cbn [map fold_left run_op].
    rewrite Write_open, buffer_spec by assumption.
    fold (run_ops (map OpWrite bs)
            (set_events w (events w
               ++ mkEvents (lines a) (clock wd) (clockReads wd)),
             advance wd (List.length (lines a)))).
    rewrite IH by assumption.
    cbn [events set_events List.concat map].
    now rewrite !map_app, mkEvents_messages, app_assoc.
Qed.

(** Chunks that end at line breaks are read as the whole input is. *)
Lemma lines_chunks (bs : list (list byte)) :
  Forall (fun a => endsLine a = true) (removelast bs) ->
  lines (List.concat bs) = List.concat (map lines bs).
Proof.
  induction bs as [|a bs IH]; intro H; [reflexivity|].
  destruct bs as [|a' bs].
  - simpl. now rewrite !app_nil_r.
  - cbn [removelast] in H. inversion H as [|? ? Ha Hrest]; subst.
    cbn [List.concat map]. rewrite lines_app by assumption.
    f_equal. apply IH. exact Hrest.
Qed.

End Splits.

(** C8 (amended).  For every input and every way of splitting it into
    consecutive write calls in which every chunk but the last is empty or
    ends with a line break, the messages of the events buffered, in
    order, are those of a single write of the whole input, whatever the
    clock shows in either run.  Nothing joins the parts of a line split
    between two calls. *)
Theorem writes_split_at_line_breaks
    (bs : list (list byte)) (w : Writer) (wd1 wd2 : World) :
  closed w = false -> err w = None ->
  Forall (fun a => endsLine a = true) (removelast bs) ->
  map Message (events (fst (run_ops (map OpWrite bs) (w, wd1))))
  = map Message (events (snd (fst (Write w wd2 (List.concat bs))))).
Proof.
  intros Hc He Hbs.
  rewrite writes_messages by assumption.
  rewrite Write_open, buffer_spec by assumption.
  cbn [fst snd events set_events].
  now rewrite map_app, mkEvents_messages, lines_chunks.
Qed.

Lemma writes_split_at_line_breaks_witness :
  map Message
    (events (fst (run_ops
                    (map OpWrite [bytes "a/b/"; bytes ""; bytes "c/d"])
                    (w0, world0))))
  = map Message
      (events (snd (fst (Write w0 (advance world0 7)
                           (List.concat
                              [bytes "a/b/"; bytes ""; bytes "c/d"]))))).
Proof.
  refine (@writes_split_at_line_breaks
            [bytes "a/b/"; bytes ""; bytes "c/d"] w0 world0
            (advance world0 7) eq_refl eq_refl _).
  repeat constructor.
Defined.

(** "x\nyz" written as "x\ny" then "z" buffers three events; written at
    once, two. *)
Lemma split_inside_a_line :
  let split :=
    events (fst (run_ops [OpWrite (bytes "x/y"); OpWrite (bytes "z")]
                   (w0, world0))) in
  let whole := events (snd (fst (Write w0 world0 (bytes "x/yz")))) in
  List.concat [bytes "x/y"; bytes "z"] = bytes "x/yz" /\
  map Message split = [str "x/"; "y"; "z"] /\
  map Message whole = [str "x/"; "yz"] /\
  ~ Permutation split whole.
Proof.
  repeat split.
  intro H. apply Permutation_length in H. discriminate.
Qed.

(** C9 (amended).  For every input to write on an open writer, only a
    read of zero bytes produces no event: no event has an empty message,
    the empty input adds none, and every line terminator ends a read
    that becomes an event, so an empty line adds one event whose message
    is its terminator. *)
Theorem Write_one_event_per_read (w : Writer) (wd : World) (b : list byte) :
  closed w = false -> err w = None ->
  exists added,
    events (snd (fst (Write w wd b))) = events w ++ added /\
    List.length added = terminators b + (if endsLine b then 0 else 1) /\
    Forall (fun e => Message e <> EmptyString) added /\
    (b = [] -> added = []).
Proof.
  intros Hc He. rewrite Write_open, buffer_spec by assumption.
  exists (mkEvents (lines b) (clock wd) (clockReads wd)).
  split; [reflexivity|]. split; [|split].
  - now rewrite mkEvents_length, lines_length.
  - apply mkEvents_nonempty, lines_nonempty.
  - intros ->. reflexivity.
Qed.

Lemma Write_one_event_per_read_witness :
  exists added,
    events (snd (fst (Write w0 world0 (bytes "//")))) = events w0 ++ added /\
    List.length added
    = terminators (bytes "//") + (if endsLine (bytes "//") then 0 else 1) /\
    Forall (fun e => Message e <> EmptyString) added /\
    (bytes "//" = [] -> added = []).
Proof.
  exact (@Write_one_event_per_read w0 world0 (bytes "//") eq_refl eq_refl).
Defined.

(** The empty line "\n" adds an event; "\n\n" adds two. *)
Lemma empty_line_adds_event :
  map Message (events (snd (fst (Write w0 world0 [newline])))) = [str "/"] /\
  events (snd (fst (Write w0 world0 [newline]))) <> events w0 /\
  List.length (events (snd (fst (Write w0 world0 [newline; newline])))) = 2.
Proof. repeat split. discriminate. Qed.

(** C10.  On a writer that is neither closed nor failed, [Write(b)]
    returns [(len(b), nil)] for every [b], and makes no network call. *)
Theorem Write_open_returns_len (w : Writer) (wd : World) (b : list byte) :
  closed w = false -> err w = None ->
  fst (fst (Write w wd b)) = (Z.of_nat (List.length b), None) /\
  calls (snd (Write w wd b)) = calls wd.
Proof.
  intros Hc He. rewrite Write_open, buffer_spec by assumption.
  split; reflexivity.
Qed.

Lemma Write_open_returns_len_witness :
  fst (fst (Write w0 world0 (bytes "a/b/c"))) = (5%Z, None) /\
  calls (snd (Write w0 world0 (bytes "a/b/c"))) = [].
Proof.
  exact (@Write_open_returns_len w0 world0 (bytes "a/b/c") eq_refl eq_refl).
Defined.

(** * Further properties: the buffer and the reads *)

Section BufferUses.

(** X1.  Whatever the order of adds and drains, the batches drained, in
    order, followed by what is left in the buffer are the events that
    were in the buffer followed by the events added, in the order they
    were added: no drain loses, repeats or reorders an event. *)
Theorem drains_conserve_events (ops : list BufOp) :
  forall w, let '(batches, w') := run_buf ops w in
    List.concat batches ++ events w' = events w ++ addedEvents ops.
Proof.
  induction ops as [|o ops IH]; intro w.
  - simpl. now rewrite app_nil_r.
  - destruct o as [e|]; cbn [run_buf addedEvents flat_map].
    + specialize (IH (add w e)).
      destruct (run_buf ops (add w e)) as [batches w'].
      rewrite IH. unfold add. simpl. now rewrite <- app_assoc.
    + unfold drain. specialize (IH (set_events w [])).
      destruct (run_buf ops (set_events w [])) as [batches w'].
      cbn [List.concat]. rewrite <- app_assoc, IH. reflexivity.
Qed.

Lemma lines_single (r : list byte) :
  Forall (fun l => noTerminator (removelast l) = true) (lines r).
Proof.
  induction r as [|c r IH]; simpl; [constructor|].
  destruct (Byte.eqb c newline) eqn:Hc.
  - constructor; [reflexivity|assumption].
  - destruct (lines r) as [|l ls] eqn:Hl.
    + constructor; [reflexivity|constructor].
    + inversion IH; subst. constructor; [|assumption].
      destruct l as [|d l].
      * pose proof (lines_nonempty r) as Hn. rewrite Hl in Hn.
        inversion Hn. congruence.
      * change (removelast (c :: d :: l)) with (c :: removelast (d :: l)).
        unfold noTerminator in *. cbn [forallb]. now rewrite Hc.
Qed.

Lemma lines_terminated (r : list byte) :
  Forall (fun l => last l newline = newline /\ l <> [])
         (removelast (lines r)).
Proof.
  induction r as [|c r IH]; simpl; [constructor|].
  destruct (Byte.eqb c newline) eqn:Hc.
  - destruct (lines r) as [|l ls]; [constructor|].
    constructor; [|exact IH].
    apply Byte.byte_dec_bl in Hc. subst c. split; [reflexivity|discriminate].
  - destruct (lines r) as [|l ls] eqn:Hl; [constructor|].
    destruct ls as [|l' ls]; [constructor|].
    change (removelast ((c :: l) :: l' :: ls))
      with ((c :: l) :: removelast (l' :: ls)).
    change (removelast (l :: l' :: ls))
      with (l :: removelast (l' :: ls)) in IH.
    inversion IH as [|? ? [Hlast Hne] Hrest]; subst.
    constructor; [|exact Hrest].
    split; [|discriminate].
    destruct l as [|d l]; [congruence|exact Hlast].
Qed.

Lemma mkEvents_bytes (ls : list (list byte)) (clk : nat -> Z) :
  forall k,
    map (fun e => list_byte_of_string (Message e)) (mkEvents ls clk k) = ls.
Proof.
  induction ls as [|l ls IH]; intro k; simpl; [reflexivity|].
  now rewrite IH, list_byte_of_string_of_list_byte.
Qed.

Lemma mkEvents_app (xs ys : list (list byte)) (clk : nat -> Z) :
  forall k,
    mkEvents (xs ++ ys) clk k
    = mkEvents xs clk k ++ mkEvents ys clk (k + List.length xs).
Proof.
  induction xs as [|x xs IH]; intro k; simpl.
  - now rewrite Nat.add_0_r.
  - rewrite IH. now rewrite Nat.add_succ_r.
Qed.

Lemma mkEvents_lower (ls : list (list byte)) (clk : nat -> Z) (i : nat) :
  (forall a b, a <= b -> (clk a <= clk b)%Z) ->
  forall k, i <= k ->
    Forall (fun t => (Z.quot (clk i) 1000000 <= t)%Z)
           (map Timestamp (mkEvents ls clk k)).
Proof.
  intro Hmono. induction ls as [|l ls IH]; intros k Hik; simpl;
    constructor.
  - apply Z.quot_le_mono; [lia|]. apply Hmono, Hik.
  - apply IH. lia.
Qed.

Lemma mkEvents_sorted (ls : list (list byte)) (clk : nat -> Z) :
  (forall a b, a <= b -> (clk a <= clk b)%Z) ->
  forall k, StronglySorted Z.le (map Timestamp (mkEvents ls clk k)).
Proof.
  intro Hmono. induction ls as [|l ls IH]; intro k; simpl; constructor.
  - apply IH.
  - apply mkEvents_lower; [exact Hmono|lia].
Qed.

Lemma mkEvents_timestamps (ls : list (list byte)) (clk : nat -> Z) :
  forall k,
    map Timestamp (mkEvents ls clk k)
    = map (fun i => Z.quot (clk i) 1000000) (seq k (List.length ls)).
Proof.
  induction ls as [|l ls IH]; intro k; simpl; [reflexivity|].
  now rewrite IH.
Qed.

(** The events buffered, and the clock readings used, by consecutive
    writes on an open writer. *)
Lemma writes_events (bs : list (list byte)) :
  forall w wd, closed w = false -> err w = None ->
    run_ops (map OpWrite bs) (w, wd)
    = (set_events w
         (events w ++ mkEvents (List.concat (map lines bs))
                               (clock wd) (clockReads wd)),
       advance wd (List.length (List.concat (map lines bs)))).
Proof.
  induction bs as [|a bs IH]; intros w wd Hc He.
  - simpl. now rewrite set_events_same, advance_0.
  - unfold run_ops. cbn [map fold_left run_op].
    rewrite Write_open, buffer_spec by assumption.
    fold (run_ops (map OpWrite bs)
            (set_events w (events w
               ++ mkEvents (lines a) (clock wd) (clockReads wd)),
             advance wd (List.length (lines a)))).
    rewrite IH by assumption.
    cbn [List.concat map]. rewrite mkEvents_app, length_app.
    unfold set_events, advance. simpl.
    now rewrite <- app_assoc, Nat.add_assoc.
Qed.

End BufferUses.

(** X2.  On an open writer the messages of the events a write adds,
    put end to end, are the bytes written: no byte is dropped, added or
    moved. *)
Theorem Write_messages_concat (w : Writer) (wd : World) (b : list byte) :
  closed w = false -> err w = None ->
  exists new,
    events (snd (fst (Write w wd b))) = events w ++ new /\
    List.concat (map (fun e => list_byte_of_string (Message e)) new) = b.
Proof.
  intros Hc He. rewrite Write_open, buffer_spec by assumption.
  exists (mkEvents (lines b) (clock wd) (clockReads wd)).
  split; [reflexivity|]. now rewrite mkEvents_bytes, lines_concat.
Qed.

Lemma Write_messages_concat_witness :
  exists new,
    events (snd (fst (Write w0 world0 (bytes "ab//c")))) = events w0 ++ new /\
    List.concat (map (fun e => list_byte_of_string (Message e)) new)
    = bytes "ab//c".
Proof.
  exact (@Write_messages_concat w0 world0 (bytes "ab//c") eq_refl eq_refl).
Defined.

(** X3.  On an open writer every event a write adds is one line: its
    message has no line terminator before its last byte, and every
    message but the last one added ends with the terminator. *)
Theorem Write_messages_are_lines (w : Writer) (wd : World) (b : list byte) :
  closed w = false -> err w = None ->
  exists new,
    events (snd (fst (Write w wd b))) = events w ++ new /\
    let reads := map (fun e => list_byte_of_string (Message e)) new in
    Forall (fun l => noTerminator (removelast l) = true) reads /\
    Forall (fun l => last l newline = newline /\ l <> [])
           (removelast reads).
Proof.
  intros Hc He. rewrite Write_open, buffer_spec by assumption.
  exists (mkEvents (lines b) (clock wd) (clockReads wd)).
  split; [reflexivity|]. cbv zeta. rewrite mkEvents_bytes.
  split; [apply lines_single|apply lines_terminated].
Qed.

Lemma Write_messages_are_lines_witness :
  exists new,
    events (snd (fst (Write w0 world0 (bytes "ab//c")))) = events w0 ++ new /\
    let reads := map (fun e => list_byte_of_string (Message e)) new in
    Forall (fun l => noTerminator (removelast l) = true) reads /\
    Forall (fun l => last l newline = newline /\ l <> [])
           (removelast reads).
Proof.
  exact (@Write_messages_are_lines w0 world0 (bytes "ab//c") eq_refl eq_refl).
Defined.

(** X4.  Consecutive writes on an open writer with an empty buffer read
    the clock once per event and stamp each event, in order, with that
    reading divided by 1,000,000 (nanoseconds to milliseconds); so when
    the clock never goes back, the timestamps in the buffer never
    decrease. *)
Theorem writes_timestamps_sorted
    (bs : list (list byte)) (w : Writer) (wd : World) :
  closed w = false -> err w = None -> events w = [] ->
  (forall a b, a <= b -> (clock wd a <= clock wd b)%Z) ->
  let '(w', wd') := run_ops (map OpWrite bs) (w, wd) in
  clockReads wd' = clockReads wd + List.length (events w') /\
  map Timestamp (events w')
  = map (fun i => Z.quot (clock wd i) 1000000)
        (seq (clockReads wd) (List.length (events w'))) /\
  StronglySorted Z.le (map Timestamp (events w')).
Proof.
  intros Hc He Hev Hmono. rewrite writes_events by assumption.
  rewrite Hev. cbn [app events set_events advance clockReads].
  rewrite mkEvents_length. split; [reflexivity|]. split.
  - apply mkEvents_timestamps.
  - apply mkEvents_sorted, Hmono.
Qed.

Lemma writes_timestamps_sorted_witness :
  let '(w', wd') :=
    run_ops (map OpWrite [bytes "a/b"; bytes "c/"]) (w0, world0) in
  clockReads wd' = clockReads world0 + List.length (events w') /\
  map Timestamp (events w')
  = map (fun i => Z.quot (clock world0 i) 1000000)
        (seq (clockReads world0) (List.length (events w'))) /\
  StronglySorted Z.le (map Timestamp (events w')).
Proof.
  refine (@writes_timestamps_sorted [bytes "a/b"; bytes "c/"] w0 world0
            eq_refl eq_refl eq_refl _).
  intros a b _. apply Z.le_refl.
Defined.

(** * Further properties: the writer under any schedule *)

Section Schedules.

Lemma set_closed_same (w : Writer) :
  closed w = true -> set_closed w true = w.
Proof. destruct w. unfold set_closed. simpl. now intros ->. Qed.

(** What one [Flush] adds to the history, and what it keeps. *)
Lemma Flush_frame (w : Writer) (wd : World) :
  (exists new, calls (snd (Flush w wd)) = calls wd ++ new
               /\ Forall (ownPut w) new) /\
  group (fst (Flush w wd)) = group w /\
  stream (fst (Flush w wd)) = stream w /\
  client (fst (Flush w wd)) = client w.
Proof.
  destruct (events w) as [|e evs] eqn:Hev.
  - rewrite Flush_empty by assumption. simpl.
    split; [|auto]. exists []. now rewrite app_nil_r.
  - assert (Hne : events w <> []) by (rewrite Hev; discriminate).
    rewrite (Flush_nonempty w wd Hne).
    destruct (flush_calls (set_events w []) wd (events w))
      as [rest [Hc [Hp _]]].
    split.
    + eexists. split; [exact Hc|].
      constructor.
      * exists (events w), (sequenceToken w). split; [exact Hne|reflexivity].
      * clear -Hp Hne. induction Hp as [|c cs [t Hc] _ IH]; constructor.
        -- exists (events w), t. split; [exact Hne|exact Hc].
        -- exact IH.
    + destruct (flush_writer (set_events w []) wd (events w))
        as [[e' H]|[t H]]; rewrite H; auto.
Qed.

Lemma Write_frame (w : Writer) (wd : World) (b : list byte) :
  calls (snd (Write w wd b)) = calls wd /\
  group (snd (fst (Write w wd b))) = group w /\
  stream (snd (fst (Write w wd b))) = stream w /\
  client (snd (fst (Write w wd b))) = client w.
Proof.
  unfold Write. destruct (closed w); [auto|].
  destruct (err w); [auto|]. rewrite buffer_spec. auto.
Qed.

Lemma step_frame (ev : Event) (l : Loop) (w : Writer) (wd : World) :
  let s' := step ev (l, w, wd) in
  (exists new, calls (worldOf s') = calls wd ++ new
               /\ Forall (ownPut w) new) /\
  group (writerOf s') = group w /\
  stream (writerOf s') = stream w /\
  client (writerOf s') = client w.
Proof.
  assert (Hnil : exists new, calls wd = calls wd ++ new
                             /\ Forall (ownPut w) new)
    by (exists []; now rewrite app_nil_r).
  destruct ev as [[b| |]|]; unfold step, start_step, run_op.
  - pose proof (Write_frame w wd b) as [Hc H].
    destruct (Write w wd b) as [[r w'] wd']. cbn in *.
    split; [|exact H]. rewrite Hc. exact Hnil.
  - pose proof (Flush_frame w wd) as H.
    destruct (Flush w wd) as [w' wd']. exact H.
  - unfold Close. pose proof (Flush_frame (set_closed w true) wd) as H.
    destruct (Flush (set_closed w true) wd) as [w' wd']. exact H.
  - destruct l as [| |r]; cbv beta iota zeta.
    + destruct (closed w); cbn; auto.
    + pose proof (Flush_frame w wd) as H.
      destruct (Flush w wd) as [w' wd']. exact H.
    + auto.
Qed.

Lemma ownPut_frame (w w' : Writer) (c : Call) :
  group w' = group w -> stream w' = stream w -> ownPut w' c -> ownPut w c.
Proof.
  intros Hg Hs [evs [t [Hne Hc]]]. exists evs, t.
  rewrite <- Hg, <- Hs. auto.
Qed.

(** A closed writer with an empty buffer: nothing moves it. *)
Lemma frozen_step (ev : Event) (l : Loop) (w : Writer) (wd : World) :
  closed w = true -> events w = [] ->
  writerOf (step ev (l, w, wd)) = w /\ worldOf (step ev (l, w, wd)) = wd.
Proof.
  intros Hc Hev. destruct ev as [[b| |]|]; unfold step, start_step, run_op.
  - unfold Write. rewrite Hc. auto.
  - rewrite Flush_empty by assumption. auto.
  - unfold Close. rewrite set_closed_same by assumption.
    rewrite Flush_empty by assumption. auto.
  - destruct l as [| |r]; cbv beta iota zeta.
    + rewrite Hc. auto.
    + rewrite Flush_empty by assumption. auto.
    + auto.
Qed.

Lemma run_cons (ev : Event) (sched : list Event) (s : Loop * Writer * World) :
  run (ev :: sched) s = run sched (step ev s).
Proof. reflexivity. Qed.

End Schedules.

Section Runs.

(** Nothing assigns [nil] to [w.err]. *)
Lemma step_stays_failed (ev : Event) (l : Loop) (w : Writer) (wd : World) :
  err w <> None -> err (writerOf (step ev (l, w, wd))) <> None.
Proof.
  intro He.
  assert (HF : forall w0 wd0, err w0 <> None ->
                 err (fst (Flush w0 wd0)) <> None).
  { intros w0 wd0 H0. destruct (events w0) as [|x xs] eqn:Hev.
    - now rewrite Flush_empty.
    - assert (Hne : events w0 <> []) by (rewrite Hev; discriminate).
      rewrite (Flush_nonempty w0 wd0 Hne).
      destruct (flush_writer (set_events w0 []) wd0 (events w0))
        as [[e H]|[t H]]; rewrite H; [discriminate|exact H0]. }
  destruct ev as [[b| |]|]; unfold step, start_step, run_op.
  - unfold Write. destruct (closed w); [exact He|].
    destruct (err w) as [e|] eqn:Hw; [|congruence].
    cbn. now rewrite Hw.
  - pose proof (HF w wd He) as H.
    destruct (Flush w wd) as [w' wd']. exact H.
  - unfold Close. pose proof (HF (set_closed w true) wd He) as H.
    destruct (Flush (set_closed w true) wd) as [w' wd']. exact H.
  - destruct l as [| |r]; cbv beta iota zeta.
    + destruct (closed w); exact He.
    + pose proof (HF w wd He) as H.
      destruct (Flush w wd) as [w' wd']. exact H.
    + exact He.
Qed.

Lemma run_stays_failed (sched : list Event) :
  forall l w wd, err w <> None ->
    err (writerOf (run sched (l, w, wd))) <> None.
Proof.
  induction sched as [|ev sched IH]; intros l w wd He; [exact He|].
  rewrite run_cons. pose proof (@step_stays_failed ev l w wd He) as H1.
  destruct (step ev (l, w, wd)) as [[l1 w1] wd1]. apply IH, H1.
Qed.

Lemma run_frozen (sched : list Event) :
  forall l w wd, closed w = true -> events w = [] ->
    writerOf (run sched (l, w, wd)) = w /\
    worldOf (run sched (l, w, wd)) = wd.
Proof.
  induction sched as [|ev sched IH]; intros l w wd Hc Hev; [auto|].
  rewrite run_cons. pose proof (frozen_step ev l w wd Hc Hev) as H1.
  destruct (step ev (l, w, wd)) as [[l1 w1] wd1].
  destruct H1 as [Hw1 Hwd1]. cbn in Hw1, Hwd1. subst w1 wd1.
  apply IH; assumption.
Qed.

End Runs.

(** X5.  A flush whose append succeeds stores the token of the response
    (whatever else the response reports), records no error and makes no
    second call; the next flush submits its batch with that token. *)
Theorem flush_success_chains_token
    (w : Writer) (wd : World) (evs : list InputLogEvent)
    (resp : PutLogEventsOutput) :
  PutLogEvents (client w) (calls wd) (putInput w evs (sequenceToken w))
  = inl resp ->
  let '(w1, wd1) := flush w wd evs in
  sequenceToken w1 = NextSequenceToken resp /\
  err w1 = err w /\
  calls wd1 = calls wd ++ [CallPut (putInput w evs (sequenceToken w))] /\
  forall evs', exists rest,
    calls (snd (flush w1 wd1 evs'))
    = calls wd1 ++ CallPut (putInput w evs' (NextSequenceToken resp)) :: rest.
Proof.
  intro H.
  assert (Hf : flush w wd evs
               = (set_sequenceToken w (NextSequenceToken resp),
                  record_call wd
                    (CallPut (putInput w evs (sequenceToken w)))))
    by (unfold flush, putLogEvents; now rewrite H).
  rewrite Hf. repeat split.
  intro evs'.
  destruct (flush_calls (set_sequenceToken w (NextSequenceToken resp))
              (record_call wd (CallPut (putInput w evs (sequenceToken w))))
              evs') as [rest [Hc _]].
  exists rest. exact Hc.
Qed.

Lemma flush_success_chains_token_witness :
  let w := writerWith [accepted "T1"; accepted "T2"] None [] in
  let '(w1, wd1) := flush w world0 [ev1] in
  sequenceToken w1 = Some "T1" /\
  err w1 = None /\
  calls wd1 = [CallPut (putInput w [ev1] None)] /\
  forall evs', exists rest,
    calls (snd (flush w1 wd1 evs'))
    = calls wd1 ++ CallPut (putInput w evs' (Some "T1")) :: rest.
Proof.
  exact (@flush_success_chains_token
           (writerWith [accepted "T1"; accepted "T2"] None [])
           world0 [ev1] _ eq_refl).
Defined.

(** X6.  [Close] marks the writer closed and flushes: the buffer is empty
    afterwards, and if it held events they were handed, all of them and
    with the held token, to an append call (followed by at most one
    retry); with an empty buffer [Close] makes no call. *)
Theorem Close_submits_buffer (w : Writer) (wd : World) :
  let '(w1, wd1) := Close w wd in
  closed w1 = true /\ events w1 = [] /\
  exists new,
    calls wd1 = calls wd ++ new /\
    match events w with
    | [] => new = []
    | _ :: _ =>
        exists rest,
          new = CallPut (putInput w (events w) (sequenceToken w)) :: rest
          /\ List.length rest <= 1
    end.
Proof.
  unfold Close.
  pose proof (Flush_closed (set_closed w true) wd) as Hc.
  pose proof (Flush_events (set_closed w true) wd) as He.
  destruct (events w) as [|e evs] eqn:Hev.
  - rewrite Flush_empty in * by exact Hev.
    repeat split; [exact Hev|]. exists []. now rewrite app_nil_r.
  - assert (Hne : events (set_closed w true) <> [])
      by (cbn; rewrite Hev; discriminate).
    rewrite (Flush_nonempty _ wd Hne) in *.
    destruct (flush_calls (set_events (set_closed w true) []) wd
                (events (set_closed w true))) as [rest [Hcalls [_ Hlen]]].
    destruct (flush _ wd _) as [w1 wd1].
    cbn in Hc, He, Hcalls. rewrite Hev in Hcalls.
    repeat split; [exact Hc|exact He|].
    eexists. split; [exact Hcalls|]. exists rest. auto.
Qed.

(** X7.  A closed writer with an empty buffer, as [Close] leaves it,
    stays as it is under every schedule of writes, flushes, closes and
    moves of the loop; no network call is made, and every write returns
    0 bytes and [io.ErrClosedPipe]. *)
Theorem closed_writer_is_frozen
    (sched : list Event) (l : Loop) (w : Writer) (wd : World)
    (b : list byte) :
  closed w = true -> events w = [] ->
  writerOf (run sched (l, w, wd)) = w /\
  worldOf (run sched (l, w, wd)) = wd /\
  Write w wd b = ((0%Z, Some ErrClosedPipe), w, wd).
Proof.
  intros Hc Hev. destruct (run_frozen sched l w wd Hc Hev) as [Hw Hwd].
  repeat split; [exact Hw|exact Hwd|]. unfold Write. now rewrite Hc.
Qed.

Lemma closed_writer_is_frozen_witness :
  let w := fst (Close (writerWith [] None [ev1]) world0) in
  let wd := snd (Close (writerWith [] None [ev1]) world0) in
  let sched := [Caller (OpWrite (bytes "a/")); Go; Caller OpFlush; Go;
                Caller OpClose] in
  writerOf (run sched (Waiting, w, wd)) = w /\
  worldOf (run sched (Waiting, w, wd)) = wd /\
  Write w wd (bytes "b/") = ((0%Z, Some ErrClosedPipe), w, wd).
Proof.
  exact (@closed_writer_is_frozen
           [Caller (OpWrite (bytes "a/")); Go; Caller OpFlush; Go;
            Caller OpClose]
           Waiting
           (fst (Close (writerWith [] None [ev1]) world0))
           (snd (Close (writerWith [] None [ev1]) world0))
           (bytes "b/") eq_refl eq_refl).
Defined.

(** X9.  A writer that has stored an error stays failed: under every
    schedule of caller operations and moves of the loop the stored error
    is never cleared, whatever else the flushes meet; so a write that
    starts afterwards is rejected with 0 bytes and an error, the stored
    one or [io.ErrClosedPipe], and buffers nothing. *)
Theorem failed_writer_stays_failed
    (sched : list Event) (l : Loop) (w : Writer) (wd : World)
    (b : list byte) :
  err w <> None ->
  let s' := run sched (l, w, wd) in
  err (writerOf s') <> None /\
  exists e,
    (e = ErrClosedPipe \/ err (writerOf s') = Some e) /\
    Write (writerOf s') (worldOf s') b
    = ((0%Z, Some e), writerOf s', worldOf s').
Proof.
  intros He s'. pose proof (@run_stays_failed sched l w wd He) as H.
  fold s' in H. split; [exact H|].
  unfold Write. destruct (closed (writerOf s')).
  - exists ErrClosedPipe. auto.
  - destruct (err (writerOf s')) as [e|]; [|congruence].
    exists e. auto.
Qed.

Lemma failed_writer_stays_failed_witness :
  let w := fst (Flush (writerWith [inr timeout; inr throttled] None [ev1])
                      world0) in
  let wd := snd (Flush (writerWith [inr timeout; inr throttled] None [ev1])
                       world0) in
  let s' := run [Caller (OpWrite (bytes "a/")); Go; Go; Caller OpFlush]
                (Waiting, w, wd) in
  err (writerOf s') <> None /\
  exists e,
    (e = ErrClosedPipe \/ err (writerOf s') = Some e) /\
    Write (writerOf s') (worldOf s') (bytes "b/")
    = ((0%Z, Some e), writerOf s', worldOf s').
Proof.
  refine (@failed_writer_stays_failed
            [Caller (OpWrite (bytes "a/")); Go; Go; Caller OpFlush] Waiting
            (fst (Flush (writerWith [inr timeout; inr throttled] None [ev1])
                        world0))
            (snd (Flush (writerWith [inr timeout; inr throttled] None [ev1])
                        world0))
            (bytes "b/") _).
  discriminate.
Defined.

(** X10.  Under every schedule the writer's group, stream and client
    stay the same, and every network call it makes is an append of a
    non-empty batch to its own group and stream: it never describes
    streams and never submits an empty batch. *)
Theorem writer_only_appends_to_its_stream (sched : list Event) :
  forall (l : Loop) (w : Writer) (wd : World),
    let s' := run sched (l, w, wd) in
    (exists new, calls (worldOf s') = calls wd ++ new
                 /\ Forall (ownPut w) new) /\
    group (writerOf s') = group w /\
    stream (writerOf s') = stream w /\
    client (writerOf s') = client w.
Proof.
  induction sched as [|ev sched IH]; intros l w wd s'.
  - subst s'. cbn. split; [|auto]. exists []. now rewrite app_nil_r.
  - subst s'. rewrite run_cons.
    pose proof (step_frame ev l w wd) as H1. cbv zeta in H1.
    destruct (step ev (l, w, wd)) as [[l1 w1] wd1].
    destruct H1 as [[new1 [Hc1 Hp1]] [Hg1 [Hs1 Hcl1]]].
    cbn in Hc1, Hg1, Hs1, Hcl1.
    specialize (IH l1 w1 wd1). cbv zeta in IH.
    destruct IH as [[new2 [Hc2 Hp2]] [Hg2 [Hs2 Hcl2]]].
    split; [|repeat split; congruence].
    exists (new1 ++ new2). split.
    + rewrite Hc2, Hc1. now rewrite app_assoc.
    + apply Forall_app. split; [exact Hp1|].
      eapply Forall_impl; [|exact Hp2].
      intros c Hc. exact (@ownPut_frame w w1 c Hg1 Hs1 Hc).
Qed.

(** X11.  With an empty buffer and no write, nothing reaches the
    network: flushes, closes and ticks of the loop on an empty buffer
    make no call and leave the buffer empty. *)
Theorem no_write_no_call (sched : list Event) :
  forall (l : Loop) (w : Writer) (wd : World),
    events w = [] ->
    Forall (fun ev => match ev with
                      | Caller (OpWrite _) => False
                      | _ => True
                      end) sched ->
    worldOf (run sched (l, w, wd)) = wd /\
    events (writerOf (run sched (l, w, wd))) = [].
Proof.
  induction sched as [|ev sched IH]; intros l w wd Hev Hs; [auto|].
  inversion Hs as [|? ? Hev1 Hrest]; subst. rewrite run_cons.
  assert (H1 : worldOf (step ev (l, w, wd)) = wd /\
               events (writerOf (step ev (l, w, wd))) = []).
  { destruct ev as [[b| |]|]; unfold step, start_step, run_op.
    - contradiction.
    - rewrite Flush_empty by assumption. auto.
    - unfold Close. rewrite Flush_empty by exact Hev. auto.
    - destruct l as [| |r]; cbv beta iota zeta.
      + destruct (closed w); auto.
      + rewrite Flush_empty by assumption. auto.
      + auto. }
  destruct (step ev (l, w, wd)) as [[l1 w1] wd1].
  destruct H1 as [Hwd1 Hev1']. cbn in Hwd1, Hev1'. subst wd1.
  apply IH; assumption.
Qed.

Lemma no_write_no_call_witness :
  let w := writerWith [inr timeout] (Some "T") [] in
  let sched := [Go; Go; Caller OpFlush; Go; Caller OpClose; Go; Go] in
  worldOf (run sched (AtCheck, w, world0)) = world0 /\
  events (writerOf (run sched (AtCheck, w, world0))) = [].
Proof.
  refine (@no_write_no_call
            [Go; Go; Caller OpFlush; Go; Caller OpClose; Go; Go]
            AtCheck (writerWith [inr timeout] (Some "T") []) world0
            eq_refl _).
  repeat constructor.
Defined.

(** * Further properties: the token carried by a conflict *)

Section LastPart.

Lemma Split_not_nil (s : string) (sep : ascii) : strings.Split s sep <> [].
Proof.
  destruct s as [|c s]; simpl; [discriminate|].
  destruct (Ascii.eqb c sep); [discriminate|].
  destruct (strings.Split s sep); discriminate.
Qed.

Lemma last_cons (A : Type) (x d : A) (l : list A) :
  l <> [] -> last (x :: l) d = last l d.
Proof. destruct l; [congruence|reflexivity]. Qed.

Lemma nth_last (A : Type) (d : A) (l : list A) :
  nth (List.length l - 1) l d = last l d.
Proof.
  induction l as [|x l IH]; [reflexivity|].
  destruct l as [|y l]; [reflexivity|].
  rewrite last_cons by discriminate. rewrite <- IH.
  cbn [List.length]. rewrite !Nat.sub_succ, !Nat.sub_0_r. reflexivity.
Qed.

Lemma Split_noSpace (t : string) :
  noSpace t = true -> strings.Split t space = [t].
Proof.
  induction t as [|c t IH]; intro H; [reflexivity|].
  simpl in H. apply andb_prop in H. destruct H as [Hc Ht].
  apply negb_true_iff in Hc. simpl. rewrite Hc, (IH Ht). reflexivity.
Qed.

Lemma Split_parts_noSpace (s : string) :
  Forall (fun p => noSpace p = true) (strings.Split s space).
Proof.
  induction s as [|c s IH]; simpl.
  - constructor; [reflexivity|constructor].
  - destruct (Ascii.eqb c space) eqn:Hc.
    + constructor; [reflexivity|exact IH].
    + destruct (strings.Split s space) as [|p ps].
      * constructor; [simpl; now rewrite Hc|constructor].
      * inversion IH; subst. constructor; [|assumption].
        simpl. rewrite Hc. assumption.
Qed.

Lemma Split_app_two (m t : string) :
  exists p q qs,
    strings.Split (m ++ String space t) space = p :: q :: qs.
Proof.
  induction m as [|c m [p [q [qs IH]]]]; simpl.
  - destruct (strings.Split t space) as [|q qs] eqn:Hs.
    + now apply Split_not_nil in Hs.
    + eauto.
  - rewrite IH. destruct (Ascii.eqb c space); eauto.
Qed.

Lemma last_Split_app (m t : string) :
  last (strings.Split (m ++ String space t) space) EmptyString
  = last (strings.Split t space) EmptyString.
Proof.
  induction m as [|c m IH].
  - simpl. apply last_cons, Split_not_nil.
  - cbn [append strings.Split].
    destruct (Split_app_two m t) as [p [q [qs Hs]]].
    destruct (Ascii.eqb c space).
    + rewrite last_cons by apply Split_not_nil. exact IH.
    + rewrite Hs in *. cbv beta iota.
      rewrite (@last_cons _ (String c p) EmptyString (q :: qs))
        by discriminate.
      rewrite <- IH. symmetry. apply last_cons. discriminate.
Qed.

End LastPart.

(** X12.  The token [flush] takes from the message of a conflict is the
    text after the last space of the message: it never contains a
    space, it is the whole message when the message has no space, and
    for a message that ends with a space and a token without spaces it
    is exactly that token. *)
Theorem lastPart_is_last_word (message t : string) :
  noSpace t = true ->
  noSpace (lastPart message) = true /\
  lastPart t = t /\
  lastPart (message ++ " " ++ t) = t.
Proof.
  intro Ht. unfold lastPart. rewrite !nth_last. split; [|split].
  - pose proof (Split_parts_noSpace message) as H.
    pose proof (Split_not_nil message space) as Hn.
    induction H as [|p ps Hp _ IH]; [congruence|].
    destruct ps as [|q qs]; [exact Hp|].
    rewrite last_cons by discriminate. apply IH. discriminate.
  - now rewrite Split_noSpace.
  - change (message ++ " " ++ t)%string
      with (message ++ String space t)%string.
    rewrite last_Split_app. now rewrite Split_noSpace.
Qed.

Lemma lastPart_is_last_word_witness :
  noSpace (lastPart "The next expected sequenceToken is: 4957") = true /\
  lastPart "4957" = "4957" /\
  lastPart ("The next expected sequenceToken is:" ++ " " ++ "4957") = "4957".
Proof.
  exact (@lastPart_is_last_word
           "The next expected sequenceToken is:" "4957" eq_refl).
Defined.

(** * Further properties: the earlier revision *)

(** X13.  In the earlier revision a held token is never sent: when the
    writer holds a sequence token, [flush] makes no lookup and submits
    the batch with an absent token, in one call. *)
Theorem Earlier_held_token_is_not_sent
    (w : Writer) (wd : World) (evs : list InputLogEvent) (t : string) :
  sequenceToken w = Some t ->
  let '(r, w', wd') := Earlier.flush w wd evs in
  calls wd' = calls wd ++ [CallPut (putInput w evs None)].
Proof.
  intro Ht. unfold Earlier.flush, Earlier.getSequenceToken. rewrite Ht.
  destruct (PutLogEvents (client w) (calls wd) (putInput w evs None))
    as [resp|e]; [destruct (RejectedInfo resp)|]; reflexivity.
Qed.

Lemma Earlier_held_token_is_not_sent_witness :
  let w := writerWith [] (Some "T1") [] in
  let '(r, w', wd') := Earlier.flush w world0 [ev1] in
  calls wd' = [CallPut (putInput w [ev1] None)].
Proof.
  exact (@Earlier_held_token_is_not_sent
           (writerWith [] (Some "T1") []) world0 [ev1] "T1" eq_refl).
Defined.

(** X14.  In the earlier revision, [Flush] of a non-empty buffer empties
    the buffer and returns exactly what it leaves in [w.err]: the error
    of a failed append, with the token kept; the rejected-events error
    when the response reports rejected events, with the token kept; and
    [nil] otherwise, which clears any error stored before and stores the
    response's token. *)
Theorem Earlier_Flush_outcomes (w : Writer) (wd : World) :
  events w <> [] ->
  let '(token, wd1) := Earlier.getSequenceToken w wd in
  let '(r, w', wd') := Earlier.Flush w wd in
  err w' = r /\ events w' = [] /\
  match PutLogEvents (client w) (calls wd1)
          (putInput w (events w) token) with
  | inr e => r = Some e /\ sequenceToken w' = sequenceToken w
  | inl resp =>
      match RejectedInfo resp with
      | Some info =>
          r = Some (RejectedLogEventsInfoError info) /\
          sequenceToken w' = sequenceToken w
      | None => r = None /\ sequenceToken w' = NextSequenceToken resp
      end
  end.
Proof.
  intro Hne. unfold Earlier.Flush, drain, Earlier.flush.
  destruct (events w) as [|ev evs] eqn:Hev; [congruence|].
  cbn [List.length Nat.eqb].
  change (Earlier.getSequenceToken (set_events w []) wd)
    with (Earlier.getSequenceToken w wd).
  destruct (Earlier.getSequenceToken w wd) as [token wd1].
  change (client (set_events w [])) with (client w).
  change (putInput (set_events w []) (ev :: evs) token)
    with (putInput w (ev :: evs) token).
  destruct (PutLogEvents (client w) (calls wd1)
              (putInput w (ev :: evs) token)) as [resp|e].
  - destruct (RejectedInfo resp); cbn; auto.
  - cbn. auto.
Qed.

Lemma Earlier_Flush_outcomes_witness :
  let w := set_err (writerWith [accepted "T1"] None [ev1]) (Some timeout) in
  let '(r, w', wd') := Earlier.Flush w world0 in
  err w' = r /\ events w' = [] /\ r = None /\
  sequenceToken w' = Some "T1".
Proof.
  refine (@Earlier_Flush_outcomes
            (set_err (writerWith [accepted "T1"] None [ev1]) (Some timeout))
            world0 _).
  discriminate.
Defined.

(** * Further properties: groups *)

Section Groups.

Lemma exceptAlreadyExists_spec (e : error) :
  (exceptAlreadyExists e = None /\
   exists m, e = AwsErr ErrCodeResourceAlreadyExistsException m) \/
  (exceptAlreadyExists e = Some e /\
   forall m, e <> AwsErr ErrCodeResourceAlreadyExistsException m).
Proof.
  destruct e as [| |code message|info|text];
    try (right; split; [reflexivity|discriminate]).
  unfold exceptAlreadyExists.
  destruct (String.eqb code ErrCodeResourceAlreadyExistsException) eqn:Hc.
  - left. apply String.eqb_eq in Hc. subst. eauto.
  - right. split; [reflexivity|]. apply String.eqb_neq in Hc.
    intros m H. inversion H. congruence.
Qed.

End Groups.

(** X15.  [Attach] makes exactly one call, creating the stream in its
    group, and has exactly one result: a new writer for that group and
    stream and no error, when the call succeeded or failed with
    "resource already exists"; no writer and the error of the call, in
    every other case. *)
Theorem Attach_creates_or_attaches
    (g : Group) (s : string) (h : list AdminCall) :
  let answer := CreateLogStream (Group_client g) h (Group_group g) s in
  let '((ow, oe), h') := Attach g s h in
  h' = h ++ [CallCreateLogStream (Group_group g) s] /\
  ((ow = Some (NewWriter (Group_group g) s (API (Group_client g))) /\
    oe = None /\
    (answer = None \/
     exists m,
       answer = Some (AwsErr ErrCodeResourceAlreadyExistsException m)))
   \/
   (ow = None /\
    exists e, oe = Some e /\ answer = Some e /\
      forall m, e <> AwsErr ErrCodeResourceAlreadyExistsException m)).
Proof.
  unfold Attach.
  destruct (CreateLogStream (Group_client g) h (Group_group g) s)
    as [e|]; cbv zeta.
  - destruct (exceptAlreadyExists_spec e) as [[H [m Hm]]|[H Hm]]; rewrite H.
    + split; [reflexivity|]. left. subst e. eauto.
    + split; [reflexivity|]. right. eauto.
  - split; [reflexivity|]. left. auto.
Qed.

(** X16.  [Create] and [Attach] make the same call and agree whenever
    [Create] succeeds or [Attach] fails; they differ exactly when the
    stream already exists, where [Create] returns that error and no
    writer while [Attach] returns the writer. *)
Theorem Create_fails_where_Attach_attaches
    (g : Group) (s : string) (h : list AdminCall) :
  let answer := CreateLogStream (Group_client g) h (Group_group g) s in
  let '((cw, ce), hc) := Create g s h in
  let '((aw, ae), ha) := Attach g s h in
  hc = ha /\ ce = answer /\
  (ce = None -> aw = cw /\ ae = None) /\
  (forall e, ae = Some e -> ce = Some e /\ cw = None /\ aw = None) /\
  (forall m,
     answer = Some (AwsErr ErrCodeResourceAlreadyExistsException m) ->
     cw = None /\ ae = None /\
     aw = Some (NewWriter (Group_group g) s (API (Group_client g)))).
Proof.
  unfold Create, Attach.
  destruct (CreateLogStream (Group_client g) h (Group_group g) s)
    as [e|]; cbv zeta.
  - destruct (exceptAlreadyExists_spec e) as [[H [m Hm]]|[H Hm]]; rewrite H.
    + repeat split; try discriminate.
    + repeat split; try discriminate; congruence.
  - repeat split; discriminate.
Qed.

(** X17.  A writer returned by [AttachStreamWithOptions] for a stream,
    on its first write of a non-empty input followed by a flush, hands
    the client a batch for that stream of the group, without a token,
    holding the lines of the input in order. *)
Theorem attached_stream_writer_appends
    (g : Group) (s : string) (opts : Options.WriterOptions)
    (h h' : list AdminCall) (w : Writer) (t : Options.Ticker)
    (wd : World) (b : list byte) :
  Options.AttachStreamWithOptions g s opts h = ((Some (w, t), None), h') ->
  b <> [] ->
  let '(_, w1, wd1) := Write w wd b in
  let '(w2, wd2) := Flush w1 wd1 in
  exists evs rest,
    calls wd2
    = calls wd ++ CallPut {| LogEvents := evs;
                             LogGroupName := Group_group g;
                             LogStreamName := s;
                             SequenceToken := None |} :: rest
    /\ map Message evs = map string_of_list_byte (lines b).
Proof.
  intros HA Hb.
  assert (Hw : w = fst (Options.NewWriter (Group_group g) s
                          (API (Group_client g)) opts)).
  { unfold Options.AttachStreamWithOptions in HA.
    destruct (CreateLogStream (Group_client g) h (Group_group g) s) as [e|].
    - destruct (exceptAlreadyExists e); inversion HA; reflexivity.
    - inversion HA; reflexivity. }
  subst w. rewrite Write_open, buffer_spec by reflexivity.
  set (w0' := fst (Options.NewWriter (Group_group g) s
                     (API (Group_client g)) opts)).
  set (evs := events w0' ++ mkEvents (lines b) (clock wd) (clockReads wd)).
  assert (Hm : map Message evs = map string_of_list_byte (lines b))
    by (unfold evs; cbn [events w0' Options.NewWriter fst app];
        apply mkEvents_messages).
  clearbody evs.
  assert (Hne : events (set_events w0' evs) <> []).
  { cbn [events set_events]. intro H0. rewrite H0 in Hm. cbn in Hm.
    symmetry in Hm. apply map_eq_nil, lines_nil in Hm. contradiction. }
  rewrite (Flush_nonempty _ _ Hne).
  destruct (flush_calls (set_events (set_events w0' evs) [])
              (advance wd (List.length (lines b)))
              (events (set_events w0' evs))) as [rest [Hc _]].
  destruct (flush _ _ _) as [w2 wd2]. cbn in Hc.
  exists evs, rest. split; [exact Hc|exact Hm].
Qed.

Lemma attached_stream_writer_appends_witness :
  let g := {| Group_group := "g";
              Group_client := admin None (Some alreadyExists) (inl []) |} in
  let w := NewWriter "g" "s" (scripted [] noStreams) in
  let '(_, w1, wd1) := Write w world0 (bytes "a/b") in
  let '(w2, wd2) := Flush w1 wd1 in
  exists evs rest,
    calls wd2
    = calls world0 ++ CallPut {| LogEvents := evs;
                                 LogGroupName := "g";
                                 LogStreamName := "s";
                                 SequenceToken := None |} :: rest
    /\ map Message evs = map string_of_list_byte (lines (bytes "a/b")).
Proof.
  refine (@attached_stream_writer_appends
            {| Group_group := "g";
               Group_client := admin None (Some alreadyExists) (inl []) |}
            "s" {| Options.FlushEvery := 1000000000 |}
            [] [CallCreateLogStream "g" "s"]
            (NewWriter "g" "s" (scripted [] noStreams))
            (Some 1000000000%Z)
            world0 (bytes "a/b") eq_refl _).
  discriminate.
Defined.

(** X18.  [NewGroup] makes exactly one call, creating the group, and
    returns the group with the given name and client and no error when
    the call succeeded or failed with "resource already exists"; no
    group and the error of the call, in every other case. *)
Theorem NewGroup_creates_or_attaches
    (g : string) (c : CloudWatchLogs) (h : list AdminCall) :
  let answer := CreateLogGroup c h g in
  let '((og, oe), h') := NewGroup g c h in
  h' = h ++ [CallCreateLogGroup g] /\
  ((og = Some {| Group_group := g; Group_client := c |} /\ oe = None /\
    (answer = None \/
     exists m,
       answer = Some (AwsErr ErrCodeResourceAlreadyExistsException m)))
   \/
   (og = None /\
    exists e, oe = Some e /\ answer = Some e /\
      forall m, e <> AwsErr ErrCodeResourceAlreadyExistsException m)).
Proof.
  unfold NewGroup. destruct (CreateLogGroup c h g) as [e|]; cbv zeta.
  - destruct (exceptAlreadyExists_spec e) as [[H [m Hm]]|[H Hm]]; rewrite H.
    + split; [reflexivity|]. left. subst e. eauto.
    + split; [reflexivity|]. right. eauto.
  - split; [reflexivity|]. left. auto.
Qed.

(** X19.  [AttachGroup] first describes the groups with the name as
    prefix, and creates the group only when that call succeeded and
    listed no group of exactly that name: a failed describe is returned
    as the error, with no group and no create call; a listed group of
    that name is returned at once; and in every case exactly one of a
    group (of the given name and client) and an error is returned. *)
Theorem AttachGroup_looks_before_creating
    (g : string) (c : CloudWatchLogs) (h : list AdminCall) :
  let answer := DescribeLogGroups c h g in
  let found :=
    match answer with
    | inl groups => existsb (fun lg => String.eqb (gLogGroupName lg) g) groups
    | inr _ => false
    end in
  let '((og, oe), h') := Options.AttachGroup g c h in
  (exists rest,
     h' = h ++ CallDescribeLogGroups g :: rest /\
     rest = match answer with
            | inl _ => if found then [] else [CallCreateLogGroup g]
            | inr _ => []
            end) /\
  (found = true ->
   og = Some {| Group_group := g; Group_client := c |} /\ oe = None) /\
  (forall e, answer = inr e -> og = None /\ oe = Some e) /\
  ((og = Some {| Group_group := g; Group_client := c |} /\ oe = None) \/
   (og = None /\ oe <> None)).
Proof.
  unfold Options.AttachGroup, Options.NewGroup.
  destruct (DescribeLogGroups c h g) as [groups|e]; cbv zeta.
  - destruct (existsb _ groups) eqn:Hf.
    + repeat split; try discriminate; eauto.
    + destruct (CreateLogGroup c _ g) as [e|];
        [destruct (exceptAlreadyExists e)|];
        (split; [eexists; split; [now rewrite <- app_assoc|reflexivity]|]);
        repeat split; try discriminate;
        solve [left; auto | right; split; [reflexivity|discriminate]].
  - repeat split; try discriminate.
    + eexists. split; reflexivity.
    + congruence.
    + right. split; [reflexivity|discriminate].
Qed.

(** X20.  [AttachStreamWithOptions] makes exactly one call, creating the
    stream in its group.  When the call succeeded or failed with
    "resource already exists" it returns no error and a new writer for
    that group and stream (open, without token, error or buffered
    event) whose ticker is [time.Tick(opts.FlushEvery)], the nil channel
    when [FlushEvery] is not positive; in every other case it returns
    the error of the call and no writer.  [AttachStream] does the same
    with a ticker of 5 seconds. *)
Theorem AttachStreamWithOptions_creates_or_attaches
    (g : Group) (s : string) (opts : Options.WriterOptions)
    (h : list AdminCall) :
  let answer := CreateLogStream (Group_client g) h (Group_group g) s in
  let fresh :=
    {| group := Group_group g; stream := s; sequenceToken := None;
       client := API (Group_client g); closed := false; err := None;
       events := [] |} in
  (let '((ow, oe), h') := Options.AttachStreamWithOptions g s opts h in
   h' = h ++ [CallCreateLogStream (Group_group g) s] /\
   ((ow = Some (fresh,
                if (Options.FlushEvery opts <=? 0)%Z then None
                else Some (Options.FlushEvery opts)) /\
     oe = None /\
     (answer = None \/
      exists m,
        answer = Some (AwsErr ErrCodeResourceAlreadyExistsException m)))
    \/
    (ow = None /\
     exists e, oe = Some e /\ answer = Some e /\
       forall m, e <> AwsErr ErrCodeResourceAlreadyExistsException m))) /\
  Options.AttachStream g s h
  = Options.AttachStreamWithOptions g s
      {| Options.FlushEvery := 5000000000 |} h /\
  Options.Tick 5000000000 = Some 5000000000%Z.
Proof.
  cbv zeta. split; [|split; reflexivity].
  unfold Options.AttachStreamWithOptions, Options.NewWriter, Options.Tick.
  destruct (CreateLogStream (Group_client g) h (Group_group g) s) as [e|].
  - destruct (exceptAlreadyExists_spec e) as [[H [m Hm]]|[H Hm]]; rewrite H.
    + split; [reflexivity|]. left. subst e. eauto.
    + split; [reflexivity|]. right. eauto.
  - split; [reflexivity|]. left. auto.
Qed.

Section Tickers.

Lemma ticking_step (d : Z) (ev : Event) (s : Loop * Writer * World) :
  Options.step (Some d) ev s = step ev s.
Proof. destruct ev as [o|]; reflexivity. Qed.

Lemma ticking_run (d : Z) (sched : list Event) :
  forall s, Options.run (Some d) sched s = run sched s.
Proof.
  induction sched as [|ev sched IH]; intro s; [reflexivity|].
  unfold Options.run, run. cbn [fold_left]. rewrite ticking_step.
  apply IH.
Qed.

Lemma silent_step (ev : Event) (l : Loop) (w : Writer) (wd : World) :
  let s' := Options.step None ev (l, w, wd) in
  (writerOf s', worldOf s')
  = run_ops (callerOps [ev]) (w, wd) /\
  (l = Waiting -> fst (fst s') = Waiting).
Proof.
  destruct ev as [o|]; cbn [Options.step callerOps flat_map app run_ops
                             fold_left].
  - destruct (run_op o (w, wd)) as [w' wd']. auto.
  - unfold Options.start_step. destruct l as [| |r]; cbv zeta.
    + destruct (closed w); split; try reflexivity; discriminate.
    + auto.
    + split; [reflexivity|discriminate].
Qed.

Lemma run_ops_callerOps_cons (ev : Event) (sched : list Event)
    (s : Writer * World) :
  run_ops (callerOps (ev :: sched)) s
  = run_ops (callerOps sched) (run_ops (callerOps [ev]) s).
Proof. destruct ev as [o|]; reflexivity. Qed.

End Tickers.

(** X22.  A writer whose ticker is the nil channel, as [NewWriter] makes
    it for a [FlushEvery] that is not positive, has a background loop
    that does nothing: under every schedule the writer and the calls
    made are those of the callers' operations alone, so events are sent
    only by an explicit [Flush] or [Close]; and a loop that waits for a
    tick waits for ever, closed writer or not.  With any other ticker
    the loop is [start] as above. *)
Theorem loop_without_ticker_never_flushes (sched : list Event) :
  forall (l : Loop) (w : Writer) (wd : World),
    let s' := Options.run None sched (l, w, wd) in
    (writerOf s', worldOf s') = run_ops (callerOps sched) (w, wd) /\
    fst (fst (Options.run None sched (Waiting, w, wd))) = Waiting /\
    (forall d, Options.run (Some d) sched (l, w, wd)
               = run sched (l, w, wd)) /\
    (forall g s c opts,
       (Options.FlushEvery opts <= 0)%Z ->
       snd (Options.NewWriter g s c opts) = None).
Proof.
  induction sched as [|ev sched IH]; intros l w wd s'.
  - subst s'. cbn. repeat split.
    intros g s c opts Hd. unfold Options.NewWriter, Options.Tick. cbn.
    apply Z.leb_le in Hd. now rewrite Hd.
  - subst s'. unfold Options.run. cbn [fold_left].
    fold (Options.run None sched (Options.step None ev (l, w, wd))).
    fold (Options.run None sched (Options.step None ev (Waiting, w, wd))).
    pose proof (silent_step ev l w wd) as [H1 _].
    pose proof (silent_step ev Waiting w wd) as [H2 H3].
    cbv zeta in H1, H2, H3. specialize (H3 eq_refl).
    destruct (Options.step None ev (l, w, wd)) as [[l1 w1] wd1].
    destruct (Options.step None ev (Waiting, w, wd)) as [[l2 w2] wd2].
    change ((w1, wd1) = run_ops (callerOps [ev]) (w, wd)) in H1.
    cbn in H3. subst l2. clear H2.
    destruct (IH l1 w1 wd1) as [IH1 [_ [_ IH4]]].
    destruct (IH Waiting w2 wd2) as [_ [IH2 _]].
    cbv zeta in IH1. split; [|split; [exact IH2|split; [|exact IH4]]].
    + rewrite IH1, run_ops_callerOps_cons. now rewrite <- H1.
    + intro d. apply (ticking_run d (ev :: sched)).
Qed.

(** * Further properties: what is logged *)

(** X21.  [flush] ends in one of two ways.  Either it stores an error,
    and then the last entry handed to the logger is "error flushing"
    with that very error; or it stores a token, leaves the error as it
    was, and logs no "error flushing" entry (at most the warning that
    the data was already accepted). *)
Theorem flush_logs_every_stored_error
    (w : Writer) (wd : World) (evs : list InputLogEvent) :
  let '(w', wd') := flush w wd evs in
  (exists e new,
     w' = set_err w (Some e) /\
     logged wd' = logged wd ++ new ++ [LogErrorFlushing e]) \/
  (exists t new,
     w' = set_sequenceToken w t /\
     logged wd' = logged wd ++ new /\
     Forall (fun l => forall e, l <> LogErrorFlushing e) new).
Proof.
  unfold flush, putLogEvents.
  destruct (PutLogEvents (client w) (calls wd) _) as [resp|e].
  - right. exists (NextSequenceToken resp), []. cbn.
    now rewrite app_nil_r.
  - destruct e as [| |code message|info|text];
      try (left; eexists; eexists; split; [reflexivity|];
           cbn; symmetry; apply app_assoc).
    destruct (String.eqb code dataAlreadyAcceptedCode) eqn:Hd.
    + right. exists (Some (lastPart message)).
      destruct (negb _); cbn.
      * eexists. split; [reflexivity|].
        split; [symmetry; apply app_assoc|].
        repeat constructor; discriminate.
      * eexists. split; [reflexivity|]. split; [reflexivity|].
        repeat constructor; discriminate.
    + destruct (String.eqb code invalidSequenceTokenCode) eqn:Hi.
      * cbn [negb].
        destruct (PutLogEvents (client w) _ _) as [r2|e2].
        -- right. exists (NextSequenceToken r2), []. cbn.
           now rewrite app_nil_r.
        -- left. exists e2.
           destruct e2 as [| |c2 m2|i2|t2]; try destruct (negb _); cbn;
             first [ eexists; split; [reflexivity|];
                     symmetry; apply app_assoc
                   | exists []; split; reflexivity ].
      * left. eexists. eexists. split; [reflexivity|].
        cbn. symmetry. apply app_assoc.
Qed.
